(** * Parametric curves of the geometric-modeling repository

    A shallow embedding of the three curve classes under [src/work]:
    [ClosedSubdivisionCurve] (closedsubdivisioncurve.h), [MyB_spline]
    (mybspline.h) and [TorusKnot] (torusknot.h), followed by the properties
    of the design document that concern them.

    Modelling conventions.
    - C++ [int] is [Z].  Sizes and indices stay far below 2^31 for every
      table that fits in memory, so no wrap-around is written out; [%] on
      [int] is [Z.rem] (truncated remainder).
    - C++ [float] is an abstract scalar type [F] with the operations the
      code uses ([FloatOps]).  Properties that only depend on the shape of
      the data are proved for every such [F]; properties that depend on
      arithmetic are proved for the instance over the real numbers, that is
      with rounding left out, the conversion of an [int] to [float]
      included.  The instance over [Q] runs the same definitions on
      concrete inputs.
    - [GMlib::DVector<T>] is [list T]; a read or a write whose index depends
      on the caller's input is partial ([rd], [wr]), out of range being
      [None]. *)

From Stdlib Require Import ZArith QArith Qround Reals Lra Lia SpecFloat.
From stdpp Require Import base option list list_numbers.

(** ** Scalars and vectors *)

(** The operations on [float] that the three headers use. *)
Class FloatOps (F : Type) := {
  of_int : Z -> F;              (* static_cast<float>(i), and int-to-float promotion *)
  fadd : F -> F -> F;
  fsub : F -> F -> F;
  fmul : F -> F -> F;
  fdiv : F -> F -> F;
  floor_int : F -> Z;           (* static_cast<int>(std::floor(x)) *)
  fleb : F -> F -> bool;        (* x <= y *)
  fltb : F -> F -> bool;        (* x < y *)
  feqb : F -> F -> bool         (* x == y *)
}.

Declare Scope float_scope.
Delimit Scope float_scope with fl.
Infix "+" := fadd : float_scope.
Infix "-" := fsub : float_scope.
Infix "*" := fmul : float_scope.
Infix "/" := fdiv : float_scope.

(** [GMlib::Vector<float,3>]. *)
Record Vec3 (F : Type) := mkVec3 { vx : F; vy : F; vz : F }.
Arguments mkVec3 {F} _ _ _.
Arguments vx {F} _.
Arguments vy {F} _.
Arguments vz {F} _.

(** ** Loops and vectors of dynamic size *)

(** [for (int i = lo; i < hi; ++i) s = body(i, s);] *)
Definition for_loop {S : Type} (lo hi : Z) (body : Z -> S -> S) (s : S) : S :=
  foldl (fun s i => body i s) s (seqZ lo (hi - lo)).

(** [v[i]] where [i] comes from the caller: [None] outside [0 .. dim-1]. *)
Definition rd {A : Type} (v : list A) (i : Z) : option A :=
  if (i <? 0)%Z then None else v !! Z.to_nat i.

(** [v[i] = x] where [i] comes from the caller. *)
Definition wr {A : Type} (v : list A) (i : Z) (x : A) : option (list A) :=
  if ((0 <=? i) && (i <? Z.of_nat (length v)))%Z
  then Some (<[Z.to_nat i := x]> v) else None.

Definition getDim {A : Type} (v : list A) : Z := Z.of_nat (length v).

Section Vectors.
Context {F : Type} `{FloatOps F}.

Definition f0 : F := of_int 0.                       (* 0.0f *)
Definition f1 : F := of_int 1.                       (* 1.0f *)
Definition fhalf : F := (of_int 1 / of_int 2)%fl.     (* 0.5f *)

Definition vzero : Vec3 F := mkVec3 f0 f0 f0.
Definition vadd (a b : Vec3 F) : Vec3 F :=
  mkVec3 (vx a + vx b)%fl (vy a + vy b)%fl (vz a + vz b)%fl.
Definition vsub (a b : Vec3 F) : Vec3 F :=
  mkVec3 (vx a - vx b)%fl (vy a - vy b)%fl (vz a - vz b)%fl.
(** [c * v] *)
Definition smul (c : F) (v : Vec3 F) : Vec3 F :=
  mkVec3 (c * vx v)%fl (c * vy v)%fl (c * vz v)%fl.
(** [v * c] *)
Definition vmul (v : Vec3 F) (c : F) : Vec3 F :=
  mkVec3 (vx v * c)%fl (vy v * c)%fl (vz v * c)%fl.

(** [v[i]] inside a loop whose bounds keep [i] in range. *)
Definition at_ (v : list (Vec3 F)) (i : Z) : Vec3 F :=
  default vzero (rd v i).

End Vectors.

(** ** ClosedSubdivisionCurve (closedsubdivisioncurve.h) *)

Module ClosedSubdivisionCurve.
Section Defs.
Context {F : Type} `{FloatOps F}.

(** Lines 91-100: the doubled vector with the midpoints inserted. *)
Definition insert_midpoints (points : list (Vec3 F)) : list (Vec3 F) :=
  let numPoints := getDim points in
  let newPoints := replicate (Z.to_nat (2 * numPoints)) vzero in
  for_loop 0 numPoints (fun i newPoints =>
    let newPoints := <[Z.to_nat (2 * i) := at_ points i]> newPoints in
    let nxt := Z.rem (i + 1) numPoints in
    <[Z.to_nat (2 * i + 1) := vmul (vadd (at_ points i) (at_ points nxt)) fhalf]>
      newPoints) newPoints.

(** Lines 105-111: one averaging pass. *)
Definition averaging_pass (newPoints : list (Vec3 F)) : list (Vec3 F) :=
  let smoothedPoints := replicate (length newPoints) vzero in
  for_loop 0 (getDim newPoints) (fun i smoothedPoints =>
    let prev := Z.rem (i - 1 + getDim newPoints) (getDim newPoints) in
    <[Z.to_nat i := vmul (vadd (at_ newPoints i) (at_ newPoints prev)) fhalf]>
      smoothedPoints) smoothedPoints.

(** [laneRiesenfeldSubdivision]: the value stored in [_subdividedPoints]. *)
Definition laneRiesenfeldSubdivision
    (controlPoints : list (Vec3 F)) (degree : Z) : list (Vec3 F) :=
  let points :=
    for_loop 0 degree (fun iter points =>
      let newPoints := insert_midpoints points in
      for_loop 1 degree (fun avg newPoints => averaging_pass newPoints) newPoints)
      controlPoints in
  let subdividedPoints := points in
  if (1 <? getDim subdividedPoints)%Z
  then <[Z.to_nat (getDim subdividedPoints - 1) := at_ subdividedPoints 0]>
         subdividedPoints
  else subdividedPoints.

(** The object after its constructor has run (lines 13-22). *)
Record t := mk { controlPoints : list (Vec3 F);
                 subdividedPoints : list (Vec3 F);
                 degree : Z }.

Definition make (controlPts : list (Vec3 F)) (degree : Z) : t :=
  mk controlPts (laneRiesenfeldSubdivision controlPts degree) degree.

Definition getStartP (c : t) : F := of_int 0.
Definition getEndP (c : t) : F := of_int 1.
Definition isClosed (c : t) : bool := true.

(** Line 55: [t * (getDim() - 1)]. *)
Definition scaled_t (dim : Z) (t : F) : F := (t * of_int (dim - 1))%fl.
(** Line 56. *)
Definition index_of (dim : Z) (t : F) : Z := Z.rem (floor_int (scaled_t dim t)) dim.
(** Lines 61 and 68. *)
Definition next_of (dim index : Z) : Z := Z.rem (index + 1) dim.
(** Line 69. *)
Definition prev_of (dim index : Z) : Z := Z.rem (index - 1 + dim) dim.

(** [eval]: the content of [_p] when the call returns, a slot being [None]
    until the call writes it ([setDim] gives the slots no value); the whole
    is [None] when a read or a write falls outside its vector, or [%] is
    taken by zero. *)
Definition eval (c : t) (t : F) (d : Z) : option (list (option (Vec3 F))) :=
  let p := replicate (Z.to_nat (d + 1)) None in
  let dim := getDim (subdividedPoints c) in
  if (dim =? 0)%Z then None else
  let index := index_of dim t in
  let alpha := (scaled_t dim t - of_int index)%fl in
  p1 ← rd (subdividedPoints c) index;
  p2 ← rd (subdividedPoints c) (next_of dim index);
  p ← wr p 0 (Some (vadd (smul (f1 - alpha)%fl p1) (smul alpha p2)));
  if (0 <? d)%Z then
    let next := next_of dim index in
    let prev := prev_of dim index in
    a ← rd (subdividedPoints c) next;
    b ← rd (subdividedPoints c) prev;
    wr p 1 (Some (vmul (vsub a b) fhalf))
  else Some p.

(** What [eval] leaves in [_p] once its three table indices are in range. *)
Definition eval_slots (c : t) (t : F) (d : Z) : list (option (Vec3 F)) :=
  let tbl := subdividedPoints c in
  let dim := getDim tbl in
  let index := index_of dim t in
  let alpha := (scaled_t dim t - of_int index)%fl in
  Some (vadd (smul (f1 - alpha)%fl (at_ tbl index))
             (smul alpha (at_ tbl (next_of dim index))))
  :: (if (0 <? d)%Z
      then Some (vmul (vsub (at_ tbl (next_of dim index))
                            (at_ tbl (prev_of dim index))) fhalf)
           :: replicate (Z.to_nat (d - 1)) None
      else []).

End Defs.
Arguments t F : clear implicits.
End ClosedSubdivisionCurve.

(** ** MyB_spline (mybspline.h) *)

Module MyB_spline.
Section Defs.
Context {F : Type} `{FloatOps F}.

Record t := mk { controlPoints : list (Vec3 F); knotVector : list F }.

(** [generateKnotVector]: the new [_knotVector].  [setDim(m)] gives its
    entries no value; the three loops write every one of them. *)
Definition generateKnotVector (controlPoints : list (Vec3 F)) : list F :=
  let n := getDim controlPoints in
  let k := 2%Z in
  let m := (n + k + 1)%Z in
  let knotVector := replicate (Z.to_nat m) f0 in
  let knotVector :=
    for_loop 0 (k + 1) (fun i kv => <[Z.to_nat i := f0]> kv) knotVector in
  let knotVector :=
    for_loop (k + 1) (m - (k + 1))
      (fun i kv => <[Z.to_nat i := of_int (i - k)]> kv) knotVector in
  let maxValue := of_int (m - 2 * (k + 1) + 1) in
  for_loop (m - (k + 1)) m (fun i kv => <[Z.to_nat i := maxValue]> kv) knotVector.

(** Constructor 1 (lines 32-35). *)
Definition make (c : list (Vec3 F)) : t := mk c (generateKnotVector c).

(** [evaluateBasis(i, degree, t)], by recursion on [degree] (the callers
    pass 2).  The operands of [&&] and [||] are read left to right and only
    as far as needed. *)
Fixpoint evaluateBasis (s : t) (i : Z) (degree : nat) (t : F) : option F :=
  let kv := knotVector s in
  match degree with
  | O =>
      ki ← rd kv i;
      in_span ← (if fleb ki t
                 then ki1 ← rd kv (i + 1); Some (fltb t ki1)
                 else Some false);
      if (in_span : bool) then Some f1 else
      last ← rd kv (getDim kv - 1);
      if feqb t last && (i =? getDim (controlPoints s) - 1)%Z
      then Some f1 else Some f0
  | S degree' =>
      let deg := Z.of_nat degree in
      kid ← rd kv (i + deg);
      ki ← rd kv i;
      let denom1 := (kid - ki)%fl in
      term1 ← (if negb (feqb denom1 f0)
               then b ← evaluateBasis s i degree' t;
                    Some ((t - ki) / denom1 * b)%fl
               else Some f0);
      kid1 ← rd kv (i + deg + 1);
      ki1 ← rd kv (i + 1);
      let denom2 := (kid1 - ki1)%fl in
      term2 ← (if negb (feqb denom2 f0)
               then b ← evaluateBasis s (i + 1) degree' t;
                    Some ((kid1 - t) / denom2 * b)%fl
               else Some f0);
      Some (term1 + term2)%fl
  end.

(** [eval]: the content of [_p] when the call returns (see
    [ClosedSubdivisionCurve.eval] for the reading of [None]). *)
Definition eval (s : t) (t : F) (d : Z) : option (list (option (Vec3 F))) :=
  p ← wr (replicate (Z.to_nat (d + 1)) None) 0 (Some vzero);
  let n := getDim (controlPoints s) in
  let degree := 2%nat in
  for_loop 0 n (fun i acc =>
    p ← acc;
    basisVal ← evaluateBasis s i degree t;
    cur ← mjoin (rd p 0);
    wr p 0 (Some (vadd cur (smul basisVal (at_ (controlPoints s) i)))))
    (Some p).


Definition getStartP (s : t) : option F := rd (knotVector s) 2.
Definition getEndP (s : t) : option F :=
  rd (knotVector s) (getDim (knotVector s) - 3).
Definition isClosed (s : t) : bool := false.

(** Lines 83-90: the span of [t], [n - 1] when the scan finds none.  Once
    [span] is set the remaining rounds do nothing ([break]). *)
Definition find_span (kv : list F) (n : Z) (t : F) : option Z :=
  let k := 2%Z in
  span ← for_loop k n (fun j acc =>
            span ← acc;
            if negb (span =? -1)%Z then Some span else
            kj ← rd kv j;
            hit ← (if fleb kj t
                   then kj1 ← rd kv (j + 1); Some (fltb t kj1)
                   else Some false);
            Some (if (hit : bool) then j else span)) (Some (-1)%Z);
  Some (if (span =? -1)%Z then (n - 1)%Z else span).

(** Lines 92-105: the [k + 1] basis weights of the span. *)
Definition basis_row (kv : list F) (span : Z) (t : F) : option (list F) :=
  let k := 2%Z in
  let N_i := <[0%nat := f1]> (replicate (Z.to_nat (k + 1)) f0) in
  for_loop 1 (k + 1) (fun d acc =>
    N_i ← acc;
    kl ← rd kv (span + 1 - d);
    let left := (t - kl)%fl in
    kr ← rd kv (span + d);
    let right := (kr - t)%fl in
    '(N_i, saved) ← for_loop 0 d (fun r acc =>
        '(N_i, saved) ← acc;
        x ← rd N_i r;
        u ← rd kv (span + r + 1);
        v ← rd kv (span + 1 - d + r);
        let temp := (x / (u - v))%fl in
        N_i ← wr N_i r (saved + right * temp)%fl;
        Some (N_i, (left * temp)%fl)) (Some (N_i, f0));
    wr N_i d saved) (Some N_i).

(** Lines 77-110: the matrix [N], a list of [m] rows of [n] entries. *)
Definition basis_matrix (kv : list F) (m n : Z) : option (list (list F)) :=
  let k := 2%Z in
  let N := replicate (Z.to_nat m) (replicate (Z.to_nat n) f0) in
  for_loop 0 m (fun i acc =>
    N ← acc;
    let t := (of_int i / of_int (m - 1))%fl in
    span ← find_span kv n t;
    N_i ← basis_row kv span t;
    for_loop 0 (k + 1) (fun j acc =>
      N ← acc;
      x ← rd N_i j;
      row ← rd N i;
      row ← wr row (span - k + j) x;
      wr N i row) (Some N)) (Some N).

Section Fit.
(** The operations of [GMlib::DMatrix<float>] that lines 113-119 call. *)
Variable transpose : list (list F) -> list (list F).
Variable mat_mul : list (list F) -> list (list F) -> list (list F).
Variable invert : list (list F) -> list (list F).
Variable mat_apply : list (list F) -> list (Vec3 F) -> list (Vec3 F).

(** [leastSquaresFit(p, n)] run on an object whose [_knotVector] is [kv]:
    the new [_controlPoints]. *)
Definition leastSquaresFit (kv : list F) (p : list (Vec3 F)) (n : Z)
  : option (list (Vec3 F)) :=
  let m := getDim p in
  N ← basis_matrix kv m n;
  let Nt := transpose N in
  let NtN := mat_mul Nt N in
  let NtNi := invert NtN in
  let NtNiNt := mat_mul NtNi Nt in
  Some (mat_apply NtNiNt p).

(** Constructor 2 (lines 38-41): [_knotVector] is default-constructed,
    hence empty, when [leastSquaresFit] runs. *)
Definition make_fitted (p : list (Vec3 F)) (n : Z) : option t :=
  c ← leastSquaresFit [] p n;
  Some (mk c (generateKnotVector c)).

End Fit.
End Defs.
Arguments t F : clear implicits.
End MyB_spline.

(** ** TorusKnot (torusknot.h), over the real numbers *)

Module TorusKnot.
Local Open Scope R_scope.

(** [eval]: the content of [_p] when the call returns. *)
Definition eval (t : R) (d : Z) : option (list (option (Vec3 R))) :=
  let _p := replicate (Z.to_nat (d + 1)) None in
  let R_ := 2 in
  let p := 2%Z in
  let q := 3%Z in
  let x := (R_ + cos (IZR q * t)) * cos (IZR p * t) in
  let y := (R_ + cos (IZR q * t)) * sin (IZR p * t) in
  let z := sin (IZR q * t) in
  _p ← wr _p 0 (Some (mkVec3 x y z));
  _p ← (if (0 <? d)%Z then
          let dx := IZR (- p) * (R_ + cos (IZR q * t)) * sin (IZR p * t)
                    - IZR q * sin (IZR q * t) * cos (IZR p * t) in
          let dy := IZR p * (R_ + cos (IZR q * t)) * cos (IZR p * t)
                    - IZR q * sin (IZR q * t) * sin (IZR p * t) in
          let dz := IZR q * cos (IZR q * t) in
          wr _p 1 (Some (mkVec3 dx dy dz))
        else Some _p);
  if (1 <? d)%Z then
    let partA := IZR (- p) * (IZR p * (R_ + cos (IZR q * t)) * cos (IZR p * t)
                              - IZR q * sin (IZR q * t) * sin (IZR p * t)) in
    let partB := IZR (- q) * (IZR q * cos (IZR q * t) * cos (IZR p * t)
                              - IZR p * sin (IZR q * t) * sin (IZR p * t)) in
    let xpp := partA + partB in
    let partC := IZR p * (IZR (- p) * (R_ + cos (IZR q * t)) * sin (IZR p * t)
                          - IZR q * sin (IZR q * t) * cos (IZR p * t)) in
    let partD := IZR (- q) * (IZR q * cos (IZR q * t) * sin (IZR p * t)
                              + IZR p * sin (IZR q * t) * cos (IZR p * t)) in
    let ypp := partC + partD in
    let zpp := IZR (- q * q) * sin (IZR q * t) in
    wr _p 2 (Some (mkVec3 xpp ypp zpp))
  else Some _p.

Definition getStartP : R := 0.
Definition getEndP : R := 6 * PI.
Definition isClosed : bool := true.

End TorusKnot.

(** ** The two scalar instances *)

Definition Rleb (a b : R) : bool := if Rle_dec a b then true else false.
Definition Rltb (a b : R) : bool := if Rlt_dec a b then true else false.
Definition Reqb (a b : R) : bool := if Req_dec_T a b then true else false.

(** Exact real arithmetic: [float] without rounding. *)
#[export] Instance R_ops : FloatOps R := {
  of_int := IZR; fadd := Rplus; fsub := Rminus; fmul := Rmult; fdiv := Rdiv;
  floor_int := Zfloor; fleb := Rleb; fltb := Rltb; feqb := Reqb
}.

(** Exact rational arithmetic, which computes. *)
#[export] Instance Q_ops : FloatOps Q := {
  of_int := inject_Z; fadd := Qplus; fsub := Qminus; fmul := Qmult; fdiv := Qdiv;
  floor_int := Qfloor; fleb := Qle_bool;
  fltb := fun a b => negb (Qle_bool b a); feqb := Qeq_bool
}.

(** ** The evaluation rule in the design document's words

    Section 4.1: scaled = t (N - 1), index = floor(scaled) mod N, alpha the
    fractional part, position the linear interpolation between table[index]
    and table[(index + 1) mod N]; first derivative the central difference of
    table[(index + 1) mod N] and table[(index - 1) mod N] scaled by 0.5.
    Here mod is the mathematical one ([Z.modulo]). *)

Module Design.
Local Open Scope R_scope.

Definition index (N : Z) (t : R) : Z := (Zfloor (t * IZR (N - 1)) mod N)%Z.

Definition alpha (N : Z) (t : R) : R :=
  t * IZR (N - 1) - IZR (Zfloor (t * IZR (N - 1))).

Definition position (table : list (Vec3 R)) (t : R) : Vec3 R :=
  let N := getDim table in
  vadd (smul (1 - alpha N t) (at_ table (index N t)))
       (smul (alpha N t) (at_ table ((index N t + 1) mod N)%Z)).

Definition derivative (table : list (Vec3 R)) (t : R) : Vec3 R :=
  let N := getDim table in
  smul (1 / 2) (vsub (at_ table ((index N t + 1) mod N)%Z)
                     (at_ table ((index N t - 1) mod N)%Z)).



End Design.

(** The control polygon of the scenario (scenario.cpp, lines 79-83), over
    [Q] and over [R]. *)
Definition unit_square {F : Type} `{FloatOps F} : list (Vec3 F) :=
  [ mkVec3 (of_int (-1)) (of_int (-1)) (of_int 0);
    mkVec3 (of_int 1) (of_int (-1)) (of_int 0);
    mkVec3 (of_int 1) (of_int 1) (of_int 0);
    mkVec3 (of_int (-1)) (of_int 1) (of_int 0) ].

(** [m] noiseless samples of the quadratic path (t, t^2, 0) at the
    parameters i / (m - 1) that [leastSquaresFit] assigns to them. *)
Definition quadratic_samples {F : Type} `{FloatOps F} (m : Z) : list (Vec3 F) :=
  (fun i => let t := (of_int i / of_int (m - 1))%fl in mkVec3 t (t * t)%fl f0)
    <$> seqZ 0 m.

(** ** Closed forms used by the proofs *)

Section ClosedForms.
Local Open Scope R_scope.

(** The value of knot [i] for [n] control points: [i - 2] clamped to
    [0 .. n - 2]. *)
Definition knot (n i : Z) : Z := Z.max 0 (Z.min (i - 2) (n - 2)).

(** One summand of the Cox-de Boor step, with its guard (lines 133-141). *)
Definition term (num denom b : R) : R :=
  if negb (Reqb denom 0) then num / denom * b else 0.

(** [evaluateBasis] on the knots of [n] control points, as a total function. *)
Fixpoint basis_val (n : Z) (t : R) (degree : nat) (i : Z) : R :=
  let K j := IZR (knot n j) in
  match degree with
  | O =>
      if (Rleb (K i) t && Rltb t (K (i + 1)%Z))
         || (Reqb t (K (n + 2)%Z) && (i =? n - 1)%Z)
      then 1 else 0
  | S degree' =>
      let deg := Z.of_nat degree in
      term (t - K i) (K (i + deg)%Z - K i) (basis_val n t degree' i)
      + term (K (i + deg + 1)%Z - t) (K (i + deg + 1)%Z - K (i + 1)%Z)
          (basis_val n t degree' (i + 1))
  end.

(** The first of the three control points whose basis function is active
    at [t] in the domain of [n] control points; the knot span of [t] is
    [active_span n t + 2]. *)
Definition active_span (n : Z) (t : R) : Z := Z.min (Zfloor t) (n - 3).




End ClosedForms.

(** ** Notions used by the further properties *)

Section FurtherNotions.
Context {F : Type} `{FloatOps F}.

(** The three weights [basis_row] computes from the four knots around the
    span: lines 94-105 unrolled for k = 2. *)
Definition row_weights (t ka k0 k1 kb : F) : list F :=
  let n0 := (f0 + (k1 - t) * (f1 / (k1 - k0)))%fl in
  let n1 := ((t - k0) * (f1 / (k1 - k0)))%fl in
  [ (f0 + (kb - t) * (n0 / (k1 - ka)))%fl;
    ((t - ka) * (n0 / (k1 - ka)) + (kb - t) * (n1 / (kb - k0)))%fl;
    ((t - ka) * (n1 / (kb - k0)))%fl ].


End FurtherNotions.

Section FurtherNotionsReal.
Local Open Scope R_scope.

(** The half-space [a x + b y + c z <= k]. *)
Definition below (a b c k : R) (p : Vec3 R) : Prop :=
  a * vx p + b * vy p + c * vz p <= k.


End FurtherNotionsReal.

(** ** The machine types: binary32 and int

    The definitions above are parametric in the scalar type and compute
    with unbounded integers.  This part gives the scalar type the code
    really has, IEEE 754 binary32 with round-to-nearest-even, and the
    range of [int], so that statements about values can be made about the
    program and not about an idealisation of it. *)

Module Binary32.
Local Open Scope Z_scope.

(** A binary32 datum.  Every finite binary32 value is a whole number of
    units of 2^-149 (the smallest subnormal) with at most 24 significant
    bits, below 2^128: [Fin neg u] is the value (-1)^neg * u * 2^-149. *)
Inductive float32 : Type :=
  | NaN
  | Inf (neg : bool)
  | Fin (neg : bool) (u : Z).

Definition one_u : Z := 2 ^ 149.        (* 1.0f, in units *)
Definition top_u : Z := 2 ^ 277.        (* 2^128: the first magnitude out of range *)

(** Number of binary digits of [u]; 0 for 0. *)
Definition digits (u : Z) : Z := Z.log2 (2 * u).

(** Distance between consecutive binary32 values at magnitude [u]. *)
Definition ulp_of (u : Z) : Z := 2 ^ Z.max 0 (digits u - 24).

Definition representable (u : Z) : Prop :=
  0 <= u < top_u /\ (ulp_of u | u).

Definition representableb (u : Z) : bool :=
  (0 <=? u) && (u <? top_u) && (u mod ulp_of u =? 0).

(** [x] is a finite binary32 value; [x] is a binary32 datum. *)
Definition finite (x : float32) : Prop :=
  match x with Fin _ u => representable u | _ => False end.
Definition valid (x : float32) : Prop :=
  match x with Fin _ u => representable u | _ => True end.
Definition finiteb (x : float32) : bool :=
  match x with Fin _ u => representableb u | _ => false end.

(** The integer nearest to p / q, ties to the even one (0 <= p, 0 < q). *)
Definition rne_int (p q : Z) : Z :=
  let k := p / q in
  let r := p mod q in
  if 2 * r <? q then k
  else if q <? 2 * r then k + 1
  else if Z.even k then k else k + 1.

(** The binary32 value nearest to the magnitude p / q units, ties to even,
    with sign [neg]; an infinity from 2^128 on. *)
Definition round (neg : bool) (p q : Z) : float32 :=
  let w := ulp_of (p / q) in
  let u := w * rne_int p (q * w) in
  if top_u <=? u then Inf neg else Fin neg u.

Definition sval (neg : bool) (u : Z) : Z := if neg then - u else u.

Definition opp (x : float32) : float32 :=
  match x with
  | NaN => NaN
  | Inf s => Inf (negb s)
  | Fin s u => Fin (negb s) u
  end.

Definition add (x y : float32) : float32 :=
  match x, y with
  | NaN, _ | _, NaN => NaN
  | Inf s1, Inf s2 => if Bool.eqb s1 s2 then Inf s1 else NaN
  | Inf s, Fin _ _ | Fin _ _, Inf s => Inf s
  | Fin s1 u1, Fin s2 u2 =>
      let a := sval s1 u1 + sval s2 u2 in
      if a =? 0 then Fin (s1 && s2) 0 else round (a <? 0) (Z.abs a) 1
  end.

Definition sub (x y : float32) : float32 := add x (opp y).

Definition mul (x y : float32) : float32 :=
  match x, y with
  | NaN, _ | _, NaN => NaN
  | Inf s1, Inf s2 => Inf (xorb s1 s2)
  | Inf s1, Fin s2 u | Fin s1 u, Inf s2 =>
      if u =? 0 then NaN else Inf (xorb s1 s2)
  | Fin s1 u1, Fin s2 u2 => round (xorb s1 s2) (u1 * u2) one_u
  end.

Definition div (x y : float32) : float32 :=
  match x, y with
  | NaN, _ | _, NaN => NaN
  | Inf _, Inf _ => NaN
  | Inf s1, Fin s2 _ => Inf (xorb s1 s2)
  | Fin s1 _, Inf s2 => Fin (xorb s1 s2) 0
  | Fin s1 u1, Fin s2 u2 =>
      if u2 =? 0 then (if u1 =? 0 then NaN else Inf (xorb s1 s2))
      else round (xorb s1 s2) (u1 * one_u) u2
  end.

(** [static_cast<float>(z)]. *)
Definition of_Z (z : Z) : float32 := round (z <? 0) (Z.abs z * one_u) 1.

(** [std::floor(x)] as a whole number.  For an infinity or a NaN the cast
    to [int] that follows in the code is undefined; the value given here
    is outside the range of [int], so that [Checked.int] refuses it. *)
Definition floor (x : float32) : Z :=
  match x with
  | Fin s u => sval s u / one_u
  | _ => 2 ^ 31
  end.

(** The order: a NaN compares false with everything, -0 equals +0. *)
Definition ord (x : float32) : option Z :=
  match x with
  | NaN => None
  | Inf s => Some (sval s top_u)
  | Fin s u => Some (sval s u)
  end.

Definition cmp (f : Z -> Z -> bool) (x y : float32) : bool :=
  match ord x, ord y with
  | Some a, Some b => f a b
  | _, _ => false
  end.

Definition leb : float32 -> float32 -> bool := cmp Z.leb.
Definition ltb : float32 -> float32 -> bool := cmp Z.ltb.
Definition eqb : float32 -> float32 -> bool := cmp Z.eqb.

(** The real number a finite datum stands for (0 for the others). *)
Definition B2R (x : float32) : R :=
  match x with
  | Fin s u => (IZR (sval s u) / IZR one_u)%R
  | _ => 0%R
  end.

(** The same datum in the Standard Library's specification of IEEE 754
    arithmetic ([SpecFloat], at precision 24 and maximal exponent 128). *)
Definition to_spec (x : float32) : spec_float :=
  match x with
  | NaN => S754_nan
  | Inf s => S754_infinity s
  | Fin s u =>
      match u / ulp_of u with
      | Zpos m => S754_finite s m (Z.max 0 (digits u - 24) - 149)
      | _ => S754_zero s
      end
  end.

End Binary32.

(** [float] as the code has it. *)
#[export] Instance B32_ops : FloatOps Binary32.float32 := {
  of_int := Binary32.of_Z; fadd := Binary32.add; fsub := Binary32.sub;
  fmul := Binary32.mul; fdiv := Binary32.div; floor_int := Binary32.floor;
  fleb := Binary32.leb; fltb := Binary32.ltb; feqb := Binary32.eqb
}.

(** [a == b] on every coordinate. *)
Definition veqb {F : Type} `{FloatOps F} (a b : Vec3 F) : bool :=
  feqb (vx a) (vx b) && feqb (vy a) (vy b) && feqb (vz a) (vz b).

(** Every coordinate is a finite binary32 value of magnitude at most
    [bound] units. *)
Definition bounded32 (bound : Z) (x : Binary32.float32) : Prop :=
  match x with
  | Binary32.Fin _ u => Binary32.representable u /\ (u <= bound)%Z
  | _ => False
  end.
Definition vbounded32 (bound : Z) (p : Vec3 Binary32.float32) : Prop :=
  bounded32 bound (vx p) /\ bounded32 bound (vy p) /\ bounded32 bound (vz p).
Definition vfinite32 (p : Vec3 Binary32.float32) : Prop :=
  Binary32.finite (vx p) /\ Binary32.finite (vy p) /\ Binary32.finite (vz p).

(** ** The same functions with the range of [int] checked

    [int] is 32 bits wide and an overflow of signed arithmetic is
    undefined: [None] below. *)

Module Checked.

Definition INT_MIN : Z := - 2 ^ 31.
Definition INT_MAX : Z := 2 ^ 31 - 1.

(** The result of an [int] expression whose mathematical value is [z]. *)
Definition int (z : Z) : option Z :=
  if ((INT_MIN <=? z) && (z <=? INT_MAX))%Z then Some z else None.

Section Defs.
Context {F : Type} `{FloatOps F}.

(** Lines 91-100.  [2 * numPoints] (line 92) is the largest [int] the loop
    forms: [2 * i], [2 * i + 1] and [i + 1] stay below it. *)
Definition insert_midpoints (points : list (Vec3 F)) : option (list (Vec3 F)) :=
  _ ← int (2 * getDim points);
  Some (ClosedSubdivisionCurve.insert_midpoints points).

(** Lines 105-111.  [i - 1 + newPoints.getDim()] (line 109) is largest in
    the last round of the loop, at [i = getDim() - 1]. *)
Definition averaging_pass (newPoints : list (Vec3 F)) : option (list (Vec3 F)) :=
  let dim := getDim newPoints in
  _ ← (if (0 <? dim)%Z then int (dim - 1 - 1 + dim) else Some 0%Z);
  Some (ClosedSubdivisionCurve.averaging_pass newPoints).

Definition laneRiesenfeldSubdivision
    (controlPoints : list (Vec3 F)) (degree : Z) : option (list (Vec3 F)) :=
  points ←
    for_loop 0 degree (fun iter acc =>
      points ← acc;
      newPoints ← insert_midpoints points;
      for_loop 1 degree (fun avg acc =>
        newPoints ← acc; averaging_pass newPoints) (Some newPoints))
      (Some controlPoints);
  let subdividedPoints := points in
  Some (if (1 <? getDim subdividedPoints)%Z
        then <[Z.to_nat (getDim subdividedPoints - 1) := at_ subdividedPoints 0]>
               subdividedPoints
        else subdividedPoints).

(** [eval] (lines 48-72), every [int] expression checked: [d + 1],
    [getDim() - 1], the cast of the floor, [index + 1] and
    [index - 1 + getDim()]. *)
Definition eval (c : ClosedSubdivisionCurve.t F) (t : F) (d : Z)
  : option (list (option (Vec3 F))) :=
  let table := ClosedSubdivisionCurve.subdividedPoints c in
  size ← int (d + 1);
  let p := replicate (Z.to_nat size) None in
  let dim := getDim table in
  dim1 ← int (dim - 1);
  let scaled_t := (t * of_int dim1)%fl in
  fl ← int (floor_int scaled_t);
  if (dim =? 0)%Z then None else
  let index := Z.rem fl dim in
  let alpha := (scaled_t - of_int index)%fl in
  p1 ← rd table index;
  i1 ← int (index + 1);
  p2 ← rd table (Z.rem i1 dim);
  p ← wr p 0 (Some (vadd (smul (f1 - alpha)%fl p1) (smul alpha p2)));
  if (0 <? d)%Z then
    i1 ← int (index + 1);
    let next := Z.rem i1 dim in
    im ← int (index - 1);
    ip ← int (im + dim);
    let prev := Z.rem ip dim in
    a ← rd table next;
    b ← rd table prev;
    wr p 1 (Some (vmul (vsub a b) fhalf))
  else Some p.

End Defs.
End Checked.

(** ** The evaluation rule of section 4.1 on floats

    The rule of [Design], with the product t (N - 1) formed in the scalar
    arithmetic as the code forms it: index = floor(scaled) mod N, alpha the
    fractional part of scaled. *)

Module DesignFloat.
Section Defs.
Context {F : Type} `{FloatOps F}.

Definition scaled (N : Z) (t : F) : F := (t * of_int (N - 1))%fl.

Definition index (N : Z) (t : F) : Z := (floor_int (scaled N t) mod N)%Z.

Definition alpha (N : Z) (t : F) : F :=
  (scaled N t - of_int (floor_int (scaled N t)))%fl.

Definition position (table : list (Vec3 F)) (t : F) : Vec3 F :=
  let N := getDim table in
  vadd (smul (f1 - alpha N t)%fl (at_ table (index N t)))
       (smul (alpha N t) (at_ table ((index N t + 1) mod N)%Z)).

Definition derivative (table : list (Vec3 F)) (t : F) : Vec3 F :=
  let N := getDim table in
  smul fhalf (vsub (at_ table ((index N t + 1) mod N)%Z)
                   (at_ table ((index N t - 1) mod N)%Z)).

End Defs.
End DesignFloat.

(** ** TorusKnot on a binary32 parameter

    [q * t] and [p * t] are float products ([p] and [q] converted to
    float); the cosines and sines of these two angles and the arithmetic on
    them are taken over the real numbers.  The cosine or sine of an
    infinity or a NaN is a NaN: no position. *)

Module TorusKnot32.
Local Open Scope R_scope.

(** Lines 35-136 as a function of the two angles. *)
Definition eval_angles (pt qt : R) (d : Z) : option (list (option (Vec3 R))) :=
  let _p := replicate (Z.to_nat (d + 1)) None in
  let R_ := 2 in
  let p := 2%Z in
  let q := 3%Z in
  let x := (R_ + cos qt) * cos pt in
  let y := (R_ + cos qt) * sin pt in
  let z := sin qt in
  _p ← wr _p 0 (Some (mkVec3 x y z));
  _p ← (if (0 <? d)%Z then
          let dx := IZR (- p) * (R_ + cos qt) * sin pt - IZR q * sin qt * cos pt in
          let dy := IZR p * (R_ + cos qt) * cos pt - IZR q * sin qt * sin pt in
          let dz := IZR q * cos qt in
          wr _p 1 (Some (mkVec3 dx dy dz))
        else Some _p);
  if (1 <? d)%Z then
    let partA := IZR (- p) * (IZR p * (R_ + cos qt) * cos pt
                              - IZR q * sin qt * sin pt) in
    let partB := IZR (- q) * (IZR q * cos qt * cos pt
                              - IZR p * sin qt * sin pt) in
    let xpp := partA + partB in
    let partC := IZR p * (IZR (- p) * (R_ + cos qt) * sin pt
                          - IZR q * sin qt * cos pt) in
    let partD := IZR (- q) * (IZR q * cos qt * sin pt
                              + IZR p * sin qt * cos pt) in
    let ypp := partC + partD in
    let zpp := IZR (- q * q) * sin qt in
    wr _p 2 (Some (mkVec3 xpp ypp zpp))
  else Some _p.

Definition angle (k : Z) (t : Binary32.float32) : Binary32.float32 :=
  Binary32.mul (Binary32.of_Z k) t.

Definition eval (t : Binary32.float32) (d : Z) : option (list (option (Vec3 R))) :=
  let pt := angle 2 t in
  let qt := angle 3 t in
  if Binary32.finiteb pt && Binary32.finiteb qt
  then eval_angles (Binary32.B2R pt) (Binary32.B2R qt) d
  else None.

End TorusKnot32.

(** Control points (i^2, i, 0), i = 0 .. n - 1. *)
Definition parabola_polygon {F : Type} `{FloatOps F} (n : Z) : list (Vec3 F) :=
  (fun i => mkVec3 (of_int (i * i)) (of_int i) f0) <$> seqZ 0 n.


(** ** The model at work, on rational inputs *)

Definition vred (v : Vec3 Q) : Vec3 Q :=
  mkVec3 (Qred (vx v)) (Qred (vy v)) (Qred (vz v)).

(** The scenario's square refined once: the eight points, the last one
    (the midpoint of the closing edge) overwritten by the first. *)
Example square_refined_once :
  vred <$> ClosedSubdivisionCurve.laneRiesenfeldSubdivision unit_square 1
  = [ mkVec3 (-1) (-1) 0; mkVec3 0 (-1) 0; mkVec3 1 (-1) 0; mkVec3 1 0 0;
      mkVec3 1 1 0; mkVec3 0 1 0; mkVec3 (-1) 1 0; mkVec3 (-1) (-1) 0 ]%Q.
Proof. vm_compute. reflexivity. Qed.

Example square_degree_three_size :
  getDim (ClosedSubdivisionCurve.laneRiesenfeldSubdivision (@unit_square Q _) 3)
  = 32%Z.
Proof. vm_compute. reflexivity. Qed.

Example knots_of_five_points :
  MyB_spline.generateKnotVector (F := Q) (replicate 5 vzero)
  = inject_Z <$> [0; 0; 0; 1; 2; 3; 3; 3]%Z.
Proof. vm_compute. reflexivity. Qed.

Example basis_of_five_points_at_half :
  fmap Qred <$> mapM (fun i => MyB_spline.evaluateBasis
                                 (MyB_spline.make (replicate 5 vzero)) i 2 (1 # 2)%Q)
                     (seqZ 0 5)
  = Some [1 # 4; 5 # 8; 1 # 8; 0; 0]%Q.
Proof. vm_compute. reflexivity. Qed.

Example basis_of_five_points_at_end :
  fmap Qred <$> mapM (fun i => MyB_spline.evaluateBasis
                                 (MyB_spline.make (replicate 5 vzero)) i 2 3%Q)
                     (seqZ 0 5)
  = Some [0; 0; 0; 0; 1]%Q.
Proof. vm_compute. reflexivity. Qed.

Example spline_value_at_third :
  fmap (M := list) (fmap (M := option) vred)
    <$> MyB_spline.eval (MyB_spline.make unit_square) (1 # 3)%Q 0
  = Some [Some (mkVec3 (1 # 9) (-8 # 9) 0)%Q].
Proof. vm_compute. reflexivity. Qed.

(** * Properties *)

(** ** Loops *)

Lemma for_loop_empty {S : Type} lo hi (body : Z -> S -> S) s :
  (hi <= lo)%Z -> for_loop lo hi body s = s.
Proof.
  intros Hle. unfold for_loop.
  replace (seqZ lo (hi - lo)) with (@nil Z); [done|].
  unfold seqZ. replace (Z.to_nat (hi - lo)) with 0%nat by lia. done.
Qed.

Lemma for_loop_snoc {S : Type} lo hi (body : Z -> S -> S) s :
  (lo <= hi)%Z -> for_loop lo (hi + 1) body s = body hi (for_loop lo hi body s).
Proof.
  intros Hle. unfold for_loop.
  replace (hi + 1 - lo)%Z with ((hi - lo) + 1)%Z by lia.
  rewrite seqZ_app by lia. rewrite foldl_app. simpl.
  replace (lo + (hi - lo))%Z with hi by lia. done.
Qed.

Lemma for_loop_last {S : Type} lo hi (body : Z -> S -> S) s :
  (lo < hi)%Z -> for_loop lo hi body s = body (hi - 1)%Z (for_loop lo (hi - 1) body s).
Proof.
  intros Hlt. rewrite <- for_loop_snoc by lia. f_equal. lia.
Qed.

Lemma for_loop_invariant {S : Type} (P : S -> Prop) lo hi (body : Z -> S -> S) s :
  P s ->
  (forall i s, (lo <= i < hi)%Z -> P s -> P (body i s)) ->
  P (for_loop lo hi body s).
Proof.
  intros Hs Hstep.
  destruct (Z.le_gt_cases lo hi) as [Hle|Hgt];
    [|rewrite for_loop_empty by lia; done].
  revert Hstep. pattern hi. apply (Zlt_lower_bound_ind _ lo); [|done].
  clear hi Hle. intros hi IH Hle Hstep.
  destruct (decide (hi = lo)) as [->|Hne]; [rewrite for_loop_empty by lia; done|].
  replace hi with ((hi - 1) + 1)%Z by lia.
  rewrite for_loop_snoc by lia. apply Hstep; [lia|].
  apply IH; [lia|]. intros i s' Hi. apply Hstep. lia.
Qed.

(** A loop whose every round multiplies a measure by [c]. *)
Lemma for_loop_scale {S : Type} (f : S -> Z) (c : Z) lo hi (body : Z -> S -> S) s :
  (lo <= hi)%Z ->
  (forall i s, (lo <= i < hi)%Z -> f (body i s) = (c * f s)%Z) ->
  f (for_loop lo hi body s) = (c ^ (hi - lo) * f s)%Z.
Proof.
  intros Hle. pattern hi. apply (Zlt_lower_bound_ind _ lo); [|done].
  clear hi Hle. intros hi IH Hle Hstep.
  destruct (decide (hi = lo)) as [->|Hne].
  { rewrite for_loop_empty by lia. rewrite Z.sub_diag. simpl. lia. }
  replace hi with ((hi - 1) + 1)%Z at 1 by lia.
  rewrite for_loop_snoc by lia. rewrite Hstep by lia.
  rewrite IH; [|lia|intros; apply Hstep; lia].
  replace (hi - lo)%Z with (Z.succ (hi - 1 - lo)) by lia.
  rewrite Z.pow_succ_r by lia. lia.
Qed.


Section SubdivisionShape.
Context {F : Type} `{FloatOps F}.
Import ClosedSubdivisionCurve.

Lemma getDim_insert {A : Type} (v : list A) (i : nat) (x : A) :
  getDim (<[i := x]> v) = getDim v.
Proof. unfold getDim. by rewrite length_insert. Qed.

Lemma getDim_nonneg {A : Type} (v : list A) : (0 <= getDim v)%Z.
Proof. unfold getDim. lia. Qed.

Lemma getDim_insert_midpoints (points : list (Vec3 F)) :
  getDim (insert_midpoints points) = (2 * getDim points)%Z.
Proof.
  unfold insert_midpoints.
  apply (for_loop_invariant (fun v => getDim v = (2 * getDim points)%Z)).
  - unfold getDim. rewrite length_replicate. lia.
  - intros i s _ Hs. by rewrite !getDim_insert.
Qed.

Lemma getDim_averaging_pass (newPoints : list (Vec3 F)) :
  getDim (averaging_pass newPoints) = getDim newPoints.
Proof.
  unfold averaging_pass.
  apply (for_loop_invariant (fun v => getDim v = getDim newPoints)).
  - unfold getDim. by rewrite length_replicate.
  - intros i s _ Hs. by rewrite getDim_insert.
Qed.

(** One round of the outer loop (lines 91-114) doubles the vector. *)
Lemma getDim_round (degree : Z) (points : list (Vec3 F)) :
  getDim (for_loop 1 degree (fun _ newPoints => averaging_pass newPoints)
            (insert_midpoints points)) = (2 * getDim points)%Z.
Proof.
  apply (for_loop_invariant (fun v => getDim v = (2 * getDim points)%Z)).
  - apply getDim_insert_midpoints.
  - intros i s _ Hs. by rewrite getDim_averaging_pass.
Qed.

Lemma getDim_laneRiesenfeldSubdivision (controlPoints : list (Vec3 F)) (degree : Z) :
  (0 <= degree)%Z ->
  getDim (laneRiesenfeldSubdivision controlPoints degree)
  = (getDim controlPoints * 2 ^ degree)%Z.
Proof.
  intros Hdeg. unfold laneRiesenfeldSubdivision.
  set (points := for_loop _ _ _ _).
  assert (Hpoints : getDim points = (2 ^ (degree - 0) * getDim controlPoints)%Z).
  { apply (for_loop_scale getDim 2); [done|]. intros i s _. apply getDim_round. }
  rewrite Z.sub_0_r in Hpoints.
  destruct (1 <? getDim points)%Z; rewrite ?getDim_insert; lia.
Qed.

Lemma rd_Some {A : Type} (v : list A) (i : Z) :
  (0 <= i < getDim v)%Z -> is_Some (rd v i).
Proof.
  intros Hi. unfold rd, getDim in *.
  destruct (Z.ltb_spec i 0); [lia|]. apply lookup_lt_is_Some. lia.
Qed.

Lemma rd_insert_eq {A : Type} (v : list A) (i : Z) (x : A) :
  (0 <= i < getDim v)%Z -> rd (<[Z.to_nat i := x]> v) i = Some x.
Proof.
  intros Hi. unfold rd, getDim in *.
  destruct (Z.ltb_spec i 0); [lia|]. apply list_lookup_insert_eq. lia.
Qed.

Lemma rd_insert_ne {A : Type} (v : list A) (i j : Z) (x : A) :
  (0 <= i)%Z -> (0 <= j)%Z -> i <> j -> rd (<[Z.to_nat i := x]> v) j = rd v j.
Proof.
  intros Hi Hj Hne. unfold rd.
  destruct (Z.ltb_spec j 0); [lia|]. apply list_lookup_insert_ne. lia.
Qed.

Lemma at_rd (v : list (Vec3 F)) (i : Z) (x : Vec3 F) :
  rd v i = Some x -> at_ v i = x.
Proof. unfold at_. by intros ->. Qed.


End SubdivisionShape.

Section SubdivisionEval.
Context {F : Type} `{FloatOps F}.
Import ClosedSubdivisionCurve.

Lemma rd_at (v : list (Vec3 F)) (i : Z) :
  (0 <= i < getDim v)%Z -> rd v i = Some (at_ v i).
Proof. intros Hi. destruct (rd_Some v i Hi) as [x Hx]. by rewrite (at_rd _ _ _ Hx). Qed.

Lemma replicate_slots {A : Type} (d : Z) :
  (0 <= d)%Z ->
  replicate (Z.to_nat (d + 1)) (@None A) = None :: replicate (Z.to_nat d) None.
Proof. intros Hd. by replace (Z.to_nat (d + 1)) with (S (Z.to_nat d)) by lia. Qed.

Lemma wr_head {A : Type} (x y : A) (l : list A) : wr (x :: l) 0 y = Some (y :: l).
Proof.
  unfold wr. destruct (Z.ltb_spec 0 (Z.of_nat (length (x :: l)))) as [_|Hlen]; [done|].
  simpl in Hlen. lia.
Qed.

Lemma wr_second {A : Type} (x x' y : A) (l : list A) :
  wr (x :: x' :: l) 1 y = Some (x :: y :: l).
Proof.
  unfold wr. destruct (Z.ltb_spec 1 (Z.of_nat (length (x :: x' :: l)))) as [_|Hlen]; [done|].
  simpl in Hlen. lia.
Qed.

Lemma eval_in_range (c : t F) (t : F) (d : Z) :
  let dim := getDim (subdividedPoints c) in
  let index := index_of dim t in
  (0 <= d)%Z ->
  (0 <= index < dim)%Z ->
  (0 <= next_of dim index < dim)%Z ->
  (0 <= prev_of dim index < dim)%Z ->
  eval c t d = Some (eval_slots c t d).
Proof.
  intros dim index Hd Hi Hn Hp. unfold eval, eval_slots.
  fold dim. fold index.
  destruct (Z.eqb_spec dim 0) as [?|_]; [lia|].
  rewrite (rd_at _ index Hi), (rd_at _ _ Hn). cbn [mbind option_bind].
  rewrite replicate_slots by lia. rewrite wr_head. cbn [mbind option_bind].
  destruct (Z.ltb_spec 0 d) as [Hpos|Hzero].
  - rewrite (rd_at _ _ Hp). cbn [mbind option_bind].
    replace (Z.to_nat d) with (S (Z.to_nat (d - 1))) by lia.
    cbn [replicate]. by rewrite wr_second.
  - by replace (Z.to_nat d) with 0%nat by lia.
Qed.

End SubdivisionEval.

Section SubdivisionReal.
Import ClosedSubdivisionCurve.
Local Open Scope R_scope.

Lemma scaled_t_real (dim : Z) (t : R) : scaled_t dim t = t * IZR (dim - 1).
Proof. reflexivity. Qed.

Lemma scaled_t_bounds (dim : Z) (t : R) :
  (2 <= dim)%Z -> 0 <= t <= 1 -> 0 <= scaled_t dim t <= IZR (dim - 1).
Proof.
  intros Hdim Ht. rewrite scaled_t_real.
  assert (1 <= IZR (dim - 1)) by (apply IZR_le; lia). nra.
Qed.

Lemma index_of_unit (dim : Z) (t : R) :
  (2 <= dim)%Z -> 0 <= t <= 1 ->
  index_of dim t = Zfloor (t * IZR (dim - 1)) /\ (0 <= index_of dim t <= dim - 1)%Z.
Proof.
  intros Hdim Ht. pose proof (scaled_t_bounds dim t Hdim Ht) as [Hlo Hhi].
  unfold index_of. cbn [floor_int R_ops]. rewrite scaled_t_real in *.
  assert (H0 : (0 <= Zfloor (t * IZR (dim - 1)))%Z) by (apply Zfloor_lub; exact Hlo).
  assert (H1 : (Zfloor (t * IZR (dim - 1)) <= dim - 1)%Z).
  { pose proof (Zfloor_le _ _ Hhi) as Hle. by rewrite ZfloorZ in Hle. }
  rewrite Z.rem_small by lia. lia.
Qed.

Lemma next_of_mod (dim index : Z) :
  (0 < dim)%Z -> (0 <= index)%Z ->
  next_of dim index = ((index + 1) mod dim)%Z /\ (0 <= next_of dim index < dim)%Z.
Proof.
  intros Hdim Hi. unfold next_of. rewrite Z.rem_mod_nonneg by lia.
  split; [done|]. apply Z.mod_pos_bound. lia.
Qed.

Lemma prev_of_mod (dim index : Z) :
  (0 < dim)%Z -> (0 <= index)%Z ->
  prev_of dim index = ((index - 1) mod dim)%Z /\ (0 <= prev_of dim index < dim)%Z.
Proof.
  intros Hdim Hi. unfold prev_of. rewrite Z.rem_mod_nonneg by lia.
  replace (index - 1 + dim)%Z with (index - 1 + 1 * dim)%Z by lia.
  rewrite Z.mod_add by lia.
  split; [done|]. apply Z.mod_pos_bound. lia.
Qed.

Lemma eval_unit (c : t R) (t : R) (d : Z) :
  (2 <= getDim (subdividedPoints c))%Z -> 0 <= t <= 1 -> (0 <= d)%Z ->
  eval c t d = Some (eval_slots c t d).
Proof.
  intros Hdim Ht Hd.
  destruct (index_of_unit _ t Hdim Ht) as [_ Hi].
  apply eval_in_range; [done|lia| |].
  - apply next_of_mod; lia.
  - apply prev_of_mod; lia.
Qed.

End SubdivisionReal.

(** ** ClosedSubdivisionCurve: the stored table *)



(** ** ClosedSubdivisionCurve: evaluation over the reals *)

Section SubdivisionClaims.
Import ClosedSubdivisionCurve.
Local Open Scope R_scope.



End SubdivisionClaims.

Section SubdivisionDesign.
Import ClosedSubdivisionCurve.
Local Open Scope R_scope.




End SubdivisionDesign.

(** ** TorusKnot *)

Section Derivatives.
Local Open Scope R_scope.















End Derivatives.

Section TorusClaims.
Local Open Scope R_scope.

Lemma wr_third {A : Type} (x x' x'' y : A) (l : list A) :
  wr (x :: x' :: x'' :: l) 2 y = Some (x :: x' :: y :: l).
Proof.
  unfold wr.
  destruct (Z.ltb_spec 2 (Z.of_nat (length (x :: x' :: x'' :: l)))) as [_|Hlen]; [done|].
  simpl in Hlen. lia.
Qed.




End TorusClaims.

(** ** Closure at the ends of the domain *)

Section Closure.
Import ClosedSubdivisionCurve.
Local Open Scope R_scope.










End Closure.

(** ** Degree 0 *)

Section DegreeZero.
Import ClosedSubdivisionCurve.


Local Open Scope R_scope.





End DegreeZero.

(** ** MyB_spline: the knot vector *)

Section Knots.
Context {F : Type} `{FloatOps F}.
Import MyB_spline.

(** A loop that stores [g j] at every index [j] of its range. *)
Lemma getDim_for_loop_insert {A : Type} (lo hi : Z) (g : Z -> A) (v : list A) :
  getDim (for_loop lo hi (fun j kv => <[Z.to_nat j := g j]> kv) v) = getDim v.
Proof.
  apply (for_loop_invariant (fun w => getDim w = getDim v)); [done|].
  intros j w _ Hw. by rewrite getDim_insert.
Qed.

Lemma rd_for_loop_insert {A : Type} (lo hi : Z) (g : Z -> A) (v : list A) (i : Z) :
  (0 <= lo)%Z -> (hi <= getDim v)%Z ->
  rd (for_loop lo hi (fun j kv => <[Z.to_nat j := g j]> kv) v) i
  = if ((lo <=? i) && (i <? hi))%Z then Some (g i) else rd v i.
Proof.
  intros Hlo Hhi. destruct (Z.le_gt_cases lo hi) as [Hle|Hgt].
  2:{ rewrite for_loop_empty by lia.
      destruct (Z.leb_spec lo i), (Z.ltb_spec i hi); simpl; done || lia. }
  revert Hhi. pattern hi. apply (Zlt_lower_bound_ind _ lo); [|done].
  clear hi Hle. intros hi IH Hle Hhi.
  destruct (decide (hi = lo)) as [->|Hne].
  { rewrite for_loop_empty by lia.
    destruct (Z.leb_spec lo i), (Z.ltb_spec i lo); simpl; done || lia. }
  rewrite for_loop_last by lia.
  destruct (decide (i = hi - 1)%Z) as [->|Hi].
  - rewrite rd_insert_eq by (rewrite getDim_for_loop_insert; lia).
    destruct (Z.leb_spec lo (hi - 1)), (Z.ltb_spec (hi - 1) hi); simpl; done || lia.
  - destruct (Z.ltb_spec i 0) as [Hneg|Hpos].
    { unfold rd at 1. destruct (Z.ltb_spec i 0); [|lia].
      destruct (Z.leb_spec lo i); [lia|]. simpl. unfold rd.
      destruct (Z.ltb_spec i 0); [done|lia]. }
    rewrite rd_insert_ne by lia. rewrite IH by lia.
    destruct (Z.leb_spec lo i), (Z.ltb_spec i (hi - 1)), (Z.ltb_spec i hi);
      simpl; done || lia.
Qed.

Lemma getDim_generateKnotVector (controlPoints : list (Vec3 F)) :
  getDim (generateKnotVector controlPoints) = (getDim controlPoints + 3)%Z.
Proof.
  unfold generateKnotVector. rewrite !getDim_for_loop_insert.
  unfold getDim. rewrite length_replicate. lia.
Qed.

Lemma rd_generateKnotVector (controlPoints : list (Vec3 F)) (i : Z) :
  let n := getDim controlPoints in
  (3 <= n)%Z -> (0 <= i < n + 3)%Z ->
  rd (generateKnotVector controlPoints) i = Some (of_int (knot n i)).
Proof.
  intros n Hn Hi. unfold generateKnotVector. fold n.
  assert (Hrep : getDim (replicate (Z.to_nat (n + 2 + 1)) f0) = (n + 3)%Z).
  { unfold getDim. rewrite length_replicate. lia. }
  rewrite !rd_for_loop_insert; rewrite ?getDim_for_loop_insert, ?Hrep; try lia.
  unfold knot, f0.
  destruct (Z.leb_spec (n + 2 + 1 - (2 + 1)) i), (Z.ltb_spec i (n + 2 + 1));
    cbn [andb]; try lia.
  - f_equal. f_equal. lia.
  - destruct (Z.leb_spec (2 + 1) i), (Z.ltb_spec i (n + 2 + 1 - (2 + 1)));
      cbn [andb]; try lia.
    + f_equal. f_equal. lia.
    + destruct (Z.leb_spec 0 i), (Z.ltb_spec i (2 + 1)); cbn [andb]; try lia.
      f_equal. f_equal. lia.
Qed.

End Knots.

Section KnotClaims.
Import MyB_spline.
Local Open Scope R_scope.



End KnotClaims.

(** ** MyB_spline: the basis functions over the reals *)

Section Basis.
Import MyB_spline.
Local Open Scope R_scope.

Lemma Rleb_true (a b : R) : Rleb a b = true <-> a <= b.
Proof. unfold Rleb. destruct (Rle_dec a b); split; done || lra. Qed.

Lemma Rltb_true (a b : R) : Rltb a b = true <-> a < b.
Proof. unfold Rltb. destruct (Rlt_dec a b); split; done || lra. Qed.

Lemma Reqb_true (a b : R) : Reqb a b = true <-> a = b.
Proof. unfold Reqb. destruct (Req_dec_T a b); split; done || lra. Qed.

(** Comparing with an integer only looks at the floor. *)
Lemma Rleb_IZR_floor (z : Z) (t : R) : Rleb (IZR z) t = (z <=? Zfloor t)%Z.
Proof.
  pose proof (Zfloor_bound t) as [Hlo Hhi].
  apply eq_true_iff_eq. rewrite Rleb_true, Z.leb_le. split.
  - apply Zfloor_lub.
  - intros Hz. apply IZR_le in Hz. lra.
Qed.

Lemma Rltb_IZR_floor (z : Z) (t : R) : Rltb t (IZR z) = (Zfloor t <? z)%Z.
Proof.
  pose proof (Zfloor_bound t) as [Hlo Hhi].
  apply eq_true_iff_eq. rewrite Rltb_true, Z.ltb_lt. split.
  - intros Ht. destruct (Z.lt_ge_cases (Zfloor t) z) as [|Hge]; [done|].
    apply IZR_le in Hge. lra.
  - intros Hz. assert (Hz' : (Zfloor t + 1 <= z)%Z) by lia.
    apply IZR_le in Hz'. rewrite plus_IZR in Hz'. lra.
Qed.

Lemma Reqb_IZR_floor (z : Z) (t : R) :
  t <= IZR z -> Reqb t (IZR z) = (Zfloor t =? z)%Z.
Proof.
  intros Ht. pose proof (Zfloor_bound t) as [Hlo Hhi].
  apply eq_true_iff_eq. rewrite Reqb_true, Z.eqb_eq. split.
  - intros ->. apply ZfloorZ.
  - intros <-. lra.
Qed.

Lemma term_zero (num denom : R) : term num denom 0 = 0.
Proof. unfold term. destruct (negb _); [unfold Rdiv; ring|done]. Qed.

Lemma term_nonzero (num denom b : R) :
  denom <> 0 -> term num denom b = num / denom * b.
Proof.
  intros Hne. unfold term.
  destruct (Reqb denom 0) eqn:Heq; [|done]. by apply Reqb_true in Heq.
Qed.

Lemma evaluateBasis_basis_val (controlPoints : list (Vec3 R)) (t : R)
    (degree : nat) (i : Z) :
  let n := getDim controlPoints in
  (3 <= n)%Z -> (0 <= i)%Z -> (i + Z.of_nat degree + 1 <= n + 2)%Z ->
  evaluateBasis (make controlPoints) i degree t = Some (basis_val n t degree i).
Proof.
  intros n Hn. revert i. induction degree as [|degree IH]; intros i Hi Hmax.
  - cbn [evaluateBasis basis_val make knotVector MyB_spline.controlPoints].
    rewrite getDim_generateKnotVector. fold n.
    rewrite !(rd_generateKnotVector controlPoints) by (fold n; lia).
    fold n. cbn [mbind option_bind of_int fleb fltb feqb R_ops].
    destruct (Rleb (IZR (knot n i)) t);
      cbn [mbind option_bind andb orb].
    + destruct (Rltb t (IZR (knot n (i + 1)))); cbn [orb]; [done|].
      replace (n + 3 - 1)%Z with (n + 2)%Z by lia.
      by destruct (Reqb t (IZR (knot n (n + 2))) && (i =? n - 1)%Z).
    + replace (n + 3 - 1)%Z with (n + 2)%Z by lia.
      by destruct (Reqb t (IZR (knot n (n + 2))) && (i =? n - 1)%Z).
  - cbn [evaluateBasis basis_val]. fold evaluateBasis.
    cbn [make knotVector].
    rewrite !(rd_generateKnotVector controlPoints) by (fold n; lia).
    fold n. cbn [mbind option_bind].
    change (generateKnotVector controlPoints)
      with (knotVector (make controlPoints)).
    change (MyB_spline.mk controlPoints (knotVector (make controlPoints)))
      with (make controlPoints).
    rewrite !IH by lia. unfold term.
    cbn [of_int fsub fadd fmul fdiv feqb R_ops f0].
    destruct (negb _); destruct (negb _); reflexivity.
Qed.

End Basis.

Section PartitionOfUnity.
Import MyB_spline.
Local Open Scope R_scope.

Variable n : Z.
Variable t : R.
Hypothesis Hn : (3 <= n)%Z.
Hypothesis Ht : 0 <= t <= IZR (n - 2).

Local Abbreviation span0 := (active_span n t).

Lemma floor_in_domain : (0 <= Zfloor t <= n - 2)%Z.
Proof.
  destruct Ht as [Hlo Hhi]. split.
  - by apply Zfloor_lub.
  - pose proof (Zfloor_le _ _ Hhi) as Hle. by rewrite ZfloorZ in Hle.
Qed.

Lemma span0_bounds : (0 <= span0 <= n - 3)%Z.
Proof. pose proof floor_in_domain. unfold active_span. lia. Qed.

Lemma span0_le : IZR span0 <= t.
Proof.
  pose proof (Zfloor_bound t) as [Hlo _].
  assert (Hle : (span0 <= Zfloor t)%Z) by (unfold active_span; lia).
  apply IZR_le in Hle. lra.
Qed.

Lemma knot_mid (j : Z) : (2 <= j <= n)%Z -> knot n j = (j - 2)%Z.
Proof. unfold knot. lia. Qed.

Lemma basis_val_S (degree : nat) (i : Z) :
  basis_val n t (S degree) i
  = term (t - IZR (knot n i))
      (IZR (knot n (i + Z.of_nat (S degree))) - IZR (knot n i))
      (basis_val n t degree i)
    + term (IZR (knot n (i + Z.of_nat (S degree) + 1)) - t)
        (IZR (knot n (i + Z.of_nat (S degree) + 1)) - IZR (knot n (i + 1)))
        (basis_val n t degree (i + 1)).
Proof. reflexivity. Qed.

Lemma basis_val_0 (i : Z) :
  (0 <= i <= n + 1)%Z ->
  basis_val n t 0 i = if (i =? span0 + 2)%Z then 1 else 0.
Proof.
  intros Hi. pose proof floor_in_domain as Hfl. cbn [basis_val].
  rewrite Rleb_IZR_floor, Rltb_IZR_floor.
  rewrite Reqb_IZR_floor
    by (replace (knot n (n + 2)) with (n - 2)%Z by (unfold knot; lia); apply Ht).
  unfold active_span, knot.
  destruct (Z.leb_spec (Z.max 0 (Z.min (i - 2) (n - 2))) (Zfloor t)),
    (Z.ltb_spec (Zfloor t) (Z.max 0 (Z.min (i + 1 - 2) (n - 2)))),
    (Z.eqb_spec (Zfloor t) (Z.max 0 (Z.min (n + 2 - 2) (n - 2)))),
    (Z.eqb_spec i (n - 1)),
    (Z.eqb_spec i (Z.min (Zfloor t) (n - 3) + 2));
    cbn [andb orb]; done || lia.
Qed.

Lemma basis_val_1 (i : Z) :
  (0 <= i <= n)%Z ->
  basis_val n t 1 i
  = if (i =? span0 + 2)%Z then t - IZR span0
    else if (i =? span0 + 1)%Z then IZR span0 + 1 - t else 0.
Proof.
  intros Hi. pose proof span0_bounds as Hs.
  rewrite basis_val_S, !basis_val_0 by lia. change (Z.of_nat 1) with 1%Z.
  destruct (Z.eqb_spec i (span0 + 2)) as [->|Hne2].
  - destruct (Z.eqb_spec (span0 + 2 + 1) (span0 + 2)); [lia|].
    rewrite term_zero, !knot_mid by lia.
    rewrite term_nonzero; rewrite !minus_IZR, !plus_IZR; [field|]; lra.
  - destruct (Z.eqb_spec i (span0 + 1)) as [->|Hne1].
    + destruct (Z.eqb_spec (span0 + 1 + 1) (span0 + 2)); [|lia].
      rewrite term_zero, !knot_mid by lia.
      rewrite term_nonzero; rewrite !minus_IZR, !plus_IZR; [field|]; lra.
    + destruct (Z.eqb_spec (i + 1) (span0 + 2)); [lia|].
      rewrite !term_zero. ring.
Qed.

Lemma basis_val_2_outside (i : Z) :
  (0 <= i <= n - 1)%Z -> (i < span0 \/ span0 + 2 < i)%Z ->
  basis_val n t 2 i = 0.
Proof.
  intros Hi Hout. rewrite basis_val_S, !basis_val_1 by lia.
  destruct (Z.eqb_spec i (span0 + 2)); [lia|].
  destruct (Z.eqb_spec i (span0 + 1)); [lia|].
  destruct (Z.eqb_spec (i + 1) (span0 + 2)); [lia|].
  destruct (Z.eqb_spec (i + 1) (span0 + 1)); [lia|].
  rewrite !term_zero. ring.
Qed.

(** The three active basis functions sum to 1. *)
Lemma basis_val_2_active :
  basis_val n t 2 span0 + basis_val n t 2 (span0 + 1) + basis_val n t 2 (span0 + 2) = 1.
Proof.
  pose proof span0_bounds as Hs.
  rewrite !(basis_val_S 1), !basis_val_1 by lia. change (Z.of_nat 2) with 2%Z.
  repeat match goal with
         | |- context [Z.eqb ?a ?b] =>
             destruct (Z.eqb_spec a b); try lia
         end.
  rewrite !term_zero.
  replace (span0 + 1 + 2 + 1)%Z with (span0 + 4)%Z by lia.
  replace (span0 + 1 + 2)%Z with (span0 + 3)%Z by lia.
  replace (span0 + 1 + 1)%Z with (span0 + 2)%Z by lia.
  replace (span0 + 2 + 2)%Z with (span0 + 4)%Z by lia.
  replace (span0 + 2 + 1)%Z with (span0 + 3)%Z by lia.
  rewrite (knot_mid (span0 + 2)), (knot_mid (span0 + 3)) by lia.
  replace (span0 + 2 - 2)%Z with span0 by lia.
  replace (span0 + 3 - 2)%Z with (span0 + 1)%Z by lia.
  assert (Ha : (knot n (span0 + 1) <= span0)%Z) by (unfold knot; lia).
  assert (Hb : (span0 + 1 <= knot n (span0 + 4))%Z) by (unfold knot; lia).
  apply IZR_le in Ha, Hb. rewrite plus_IZR in *.
  rewrite !term_nonzero by lra. field. lra.
Qed.

End PartitionOfUnity.

Section UnityClaim.
Import MyB_spline.
Local Open Scope R_scope.







End UnityClaim.

(** ** Derivative orders that [eval] does not compute *)

Section BSplineEval.
Context {F : Type} `{FloatOps F}.
Import MyB_spline.

Lemma evaluateBasis_is_Some (s : t F) (i : Z) (degree : nat) (u : F) :
  (0 <= i)%Z -> (i + Z.of_nat degree + 1 < getDim (knotVector s))%Z ->
  is_Some (evaluateBasis s i degree u).
Proof.
  revert i. induction degree as [|degree IH]; intros i Hi Hmax.
  - cbn [evaluateBasis].
    destruct (rd_Some (knotVector s) i) as [ki ->]; [lia|].
    destruct (rd_Some (knotVector s) (i + 1)) as [ki1 ->]; [lia|].
    destruct (rd_Some (knotVector s) (getDim (knotVector s) - 1)) as [kl ->]; [lia|].
    cbn [mbind option_bind].
    destruct (fleb ki u); cbn [mbind option_bind];
      [destruct (fltb u ki1)|]; try by eexists.
    all: by destruct (feqb u kl && (i =? getDim (controlPoints s) - 1)%Z); eexists.
  - cbn [evaluateBasis]. fold (@evaluateBasis F _).
    destruct (rd_Some (knotVector s) (i + Z.of_nat (S degree))) as [a ->]; [lia|].
    destruct (rd_Some (knotVector s) i) as [b ->]; [lia|].
    destruct (rd_Some (knotVector s) (i + Z.of_nat (S degree) + 1)) as [a' ->]; [lia|].
    destruct (rd_Some (knotVector s) (i + 1)) as [b' ->]; [lia|].
    destruct (IH i) as [x ->]; [lia|lia|].
    destruct (IH (i + 1)%Z) as [y ->]; [lia|lia|].
    cbn [mbind option_bind].
    destruct (negb _); destruct (negb _); by eexists.
Qed.

Lemma rd_head {A : Type} (x : A) (l : list A) : rd (x :: l) 0 = Some x.
Proof. reflexivity. Qed.

(** [MyB_spline::eval] writes slot 0 and nothing else. *)
Lemma bspline_eval_slots (controlPoints : list (Vec3 F)) (u : F) (d : Z) :
  (0 <= d)%Z ->
  exists pos, eval (make controlPoints) u d
              = Some (Some pos :: replicate (Z.to_nat d) None).
Proof.
  intros Hd. unfold eval. rewrite replicate_slots by lia. rewrite wr_head.
  cbn [mbind option_bind].
  apply (for_loop_invariant
           (fun acc => exists pos, acc = Some (Some pos :: replicate (Z.to_nat d) None)));
    [by eexists|].
  intros i acc Hi (pos & ->). cbn [mbind option_bind].
  destruct (evaluateBasis_is_Some (make controlPoints) i 2 u) as [b ->].
  - lia.
  - cbn [make knotVector]. rewrite getDim_generateKnotVector.
    cbn [make MyB_spline.controlPoints] in Hi. simpl. lia.
  - cbn [mbind option_bind]. rewrite rd_head. cbn [mjoin option_join mbind option_bind].
    rewrite wr_head. by eexists.
Qed.

End BSplineEval.

Section Orders.
Local Open Scope R_scope.

(** C9, as the code has it.  For a derivative order d >= 2 neither [eval]
    fails: the subdivision curve (table of N >= 2 entries, t in [0, 1])
    returns d + 1 slots with the position and the first derivative written,
    the B-spline d + 1 slots with only the position written; the other
    slots are left unwritten. *)
Theorem high_orders_left_unwritten
    (c : ClosedSubdivisionCurve.t R) (t : R)
    (controlPoints : list (Vec3 R)) (u : R) (d : Z) :
  (2 <= getDim (ClosedSubdivisionCurve.subdividedPoints c))%Z -> 0 <= t <= 1 ->
  (2 <= d)%Z ->
  (exists pos der,
     ClosedSubdivisionCurve.eval c t d
     = Some (Some pos :: Some der :: replicate (Z.to_nat (d - 1)) None)) /\
  (exists pos,
     MyB_spline.eval (MyB_spline.make controlPoints) u d
     = Some (Some pos :: replicate (Z.to_nat d) None)).
Proof.
  intros HN Ht Hd. split; [|apply bspline_eval_slots; lia].
  rewrite eval_unit by (done || lia). unfold ClosedSubdivisionCurve.eval_slots.
  destruct (Z.ltb_spec 0 d) as [_|?]; [|lia]. by do 2 eexists.
Qed.

Lemma high_orders_left_unwritten_witness :
  let c := ClosedSubdivisionCurve.make (@unit_square R _) 1 in
  (2 <= getDim (ClosedSubdivisionCurve.subdividedPoints c))%Z /\
  0 <= 1 / 2 <= 1 /\ (2 <= 2)%Z /\
  (exists pos der,
     ClosedSubdivisionCurve.eval c (1 / 2) 2
     = Some (Some pos :: Some der :: replicate (Z.to_nat (2 - 1)) None)) /\
  (exists pos,
     MyB_spline.eval (MyB_spline.make (@unit_square R _)) (1 / 2) 2
     = Some (Some pos :: replicate (Z.to_nat 2) None)).
Proof.
  intros c.
  assert (HN : (2 <= getDim (ClosedSubdivisionCurve.subdividedPoints c))%Z)
    by (vm_compute; discriminate).
  assert (Ht : 0 <= 1 / 2 <= 1) by lra.
  assert (Hd : (2 <= 2)%Z) by lia.
  split; [exact HN|]. split; [exact Ht|]. split; [exact Hd|].
  exact (high_orders_left_unwritten c (1 / 2) unit_square (1 / 2) 2 HN Ht Hd).
Defined.

(** C9 as stated fails: with d = 2 both calls return, and slot 2 of the
    result is unwritten. *)
Lemma unsupported_order_not_rejected :
  (exists pos der,
     ClosedSubdivisionCurve.eval
       (ClosedSubdivisionCurve.make (@unit_square Q _) 1) (1 # 2)%Q 2
     = Some [Some pos; Some der; None]) /\
  (exists pos,
     MyB_spline.eval (MyB_spline.make (@unit_square Q _)) (1 # 2)%Q 2
     = Some [Some pos; None; None]).
Proof. split; [do 2 eexists|eexists]; vm_compute; reflexivity. Qed.

End Orders.

(** ** The fitted constructor *)

Section Fitting.
Context {F : Type} `{FloatOps F}.
Import MyB_spline.

(** A loop over an optional state stays failed once a round fails. *)
Lemma for_loop_fails {S : Type} (lo hi : Z)
    (body : Z -> option S -> option S) (s : option S) :
  (forall i, body i None = None) -> (lo < hi)%Z -> body lo s = None ->
  for_loop lo hi body s = None.
Proof.
  intros Hstrict Hlt Hfirst. unfold for_loop.
  rewrite seqZ_cons by lia. cbn [foldl]. rewrite Hfirst.
  induction (seqZ (Z.succ lo) (Z.pred (hi - lo))) as [|i l IH]; [done|].
  cbn [foldl]. by rewrite Hstrict.
Qed.

(** On an empty knot vector the span search reads [_knotVector[2]], which
    does not exist. *)
Lemma find_span_empty_knots (n : Z) (u : F) :
  (3 <= n)%Z -> find_span [] n u = None.
Proof.
  intros Hn. unfold find_span. rewrite for_loop_fails; done || lia.
Qed.

Lemma basis_matrix_empty_knots (m n : Z) :
  (1 <= m)%Z -> (3 <= n)%Z -> basis_matrix [] m n = None.
Proof.
  intros Hm Hn. unfold basis_matrix. apply for_loop_fails; [done|lia|].
  cbn [mbind option_bind]. by rewrite find_span_empty_knots.
Qed.

Variable transpose : list (list F) -> list (list F).
Variable mat_mul : list (list F) -> list (list F) -> list (list F).
Variable invert : list (list F) -> list (list F).
Variable mat_apply : list (list F) -> list (Vec3 F) -> list (Vec3 F).

Lemma make_fitted_empty_knots (p : list (Vec3 F)) (n : Z) :
  (1 <= getDim p)%Z -> (3 <= n)%Z ->
  make_fitted transpose mat_mul invert mat_apply p n = None.
Proof.
  intros Hm Hn. unfold make_fitted, leastSquaresFit.
  by rewrite basis_matrix_empty_knots.
Qed.

(** C2.  The fitted constructor calls [leastSquaresFit] before
    [generateKnotVector]: fitting 3 control points to 50 samples of a
    quadratic path reads a knot out of the still empty knot vector, so no
    curve is produced, whatever the scalar arithmetic and the matrix
    operations are. *)
Theorem fitted_constructor_reads_unset_knots :
  make_fitted transpose mat_mul invert mat_apply (quadratic_samples 50) 3 = None.
Proof.
  apply make_fitted_empty_knots; [|lia].
  unfold getDim, quadratic_samples. rewrite length_fmap, length_seqZ. lia.
Qed.

End Fitting.

(** With the knot vector generated first, the same 50 samples and 3 control
    points give a basis matrix: every knot the scan reads is then there. *)
Example basis_matrix_after_knots :
  is_Some (MyB_spline.basis_matrix (F := Q)
             (MyB_spline.generateKnotVector (replicate 3 vzero)) 50 3).
Proof. vm_compute. by eexists. Qed.

(** * Further properties of the code *)

(** A loop invariant that knows the round. *)
Lemma for_loop_rounds {S : Type} (P : Z -> S -> Prop) lo hi (body : Z -> S -> S) s :
  (lo <= hi)%Z -> P lo s ->
  (forall i s, (lo <= i < hi)%Z -> P i s -> P (i + 1)%Z (body i s)) ->
  P hi (for_loop lo hi body s).
Proof.
  intros Hle Hs. pattern hi. apply (Zlt_lower_bound_ind _ lo); [|done].
  clear hi Hle. intros hi IH Hle Hstep.
  destruct (decide (hi = lo)) as [->|Hne]; [by rewrite for_loop_empty by lia|].
  rewrite for_loop_last by lia.
  replace hi with (hi - 1 + 1)%Z at 1 by lia. apply Hstep; [lia|].
  apply IH; [lia|]. intros i s' Hi. apply Hstep. lia.
Qed.

(** ** ClosedSubdivisionCurve: what the refinement writes *)

Section SubdivisionContent.
Context {F : Type} `{FloatOps F}.
Import ClosedSubdivisionCurve.

Lemma rd_in_range {A : Type} (v : list A) (i : Z) (x : A) :
  rd v i = Some x -> (0 <= i < getDim v)%Z.
Proof.
  unfold rd, getDim. destruct (Z.ltb_spec i 0); [done|].
  intros Hx. apply lookup_lt_Some in Hx. lia.
Qed.

Lemma rd_of_nat {A : Type} (v : list A) (j : nat) : rd v (Z.of_nat j) = v !! j.
Proof.
  unfold rd. destruct (Z.ltb_spec (Z.of_nat j) 0); [lia|]. by rewrite Nat2Z.id.
Qed.

Lemma insert_midpoints_at (points : list (Vec3 F)) (k : Z) :
  (0 <= k < getDim points)%Z ->
  rd (insert_midpoints points) (2 * k) = Some (at_ points k) /\
  rd (insert_midpoints points) (2 * k + 1)
  = Some (vmul (vadd (at_ points k) (at_ points (Z.rem (k + 1) (getDim points))))
               fhalf).
Proof.
  unfold insert_midpoints.
  set (numPoints := getDim points) in *.
  set (body := fun (i : Z) (newPoints : list (Vec3 F)) => _).
  revert k.
  cut (getDim (for_loop 0 numPoints body (replicate (Z.to_nat (2 * numPoints)) vzero))
       = (2 * numPoints)%Z /\
       forall k : Z, (0 <= k < numPoints)%Z ->
         rd (for_loop 0 numPoints body (replicate (Z.to_nat (2 * numPoints)) vzero))
            (2 * k) = Some (at_ points k) /\
         rd (for_loop 0 numPoints body (replicate (Z.to_nat (2 * numPoints)) vzero))
            (2 * k + 1)
         = Some (vmul (vadd (at_ points k) (at_ points (Z.rem (k + 1) numPoints)))
                      fhalf)).
  { by intros [_ Hall]. }
  apply (for_loop_rounds
           (fun hi v => getDim v = (2 * numPoints)%Z /\
              forall k : Z, (0 <= k < hi)%Z ->
                rd v (2 * k) = Some (at_ points k) /\
                rd v (2 * k + 1)
                = Some (vmul (vadd (at_ points k)
                                   (at_ points (Z.rem (k + 1) numPoints))) fhalf)));
    [subst numPoints; apply getDim_nonneg| |].
  - split; [|lia]. pose proof (getDim_nonneg points) as Hnn. fold numPoints in Hnn.
    unfold getDim at 1. rewrite length_replicate. lia.
  - intros r v Hr [Hdim Hdone]. subst body. cbv beta zeta.
    split; [by rewrite !getDim_insert|]. intros k Hk.
    destruct (decide (k = r)) as [->|Hne].
    + split.
      * rewrite rd_insert_ne by lia. apply rd_insert_eq. lia.
      * apply rd_insert_eq. rewrite getDim_insert. lia.
    + destruct (Hdone k) as [Heven Hodd]; [lia|].
      by rewrite !rd_insert_ne by lia.
Qed.

Lemma averaging_pass_at (newPoints : list (Vec3 F)) (i : Z) :
  (0 <= i < getDim newPoints)%Z ->
  rd (averaging_pass newPoints) i
  = Some (vmul (vadd (at_ newPoints i)
                     (at_ newPoints (Z.rem (i - 1 + getDim newPoints)
                                           (getDim newPoints)))) fhalf).
Proof.
  intros Hi. unfold averaging_pass.
  rewrite (rd_for_loop_insert 0 (getDim newPoints)
             (fun i => vmul (vadd (at_ newPoints i)
                                  (at_ newPoints (Z.rem (i - 1 + getDim newPoints)
                                                        (getDim newPoints)))) fhalf)).
  - destruct (Z.leb_spec 0 i), (Z.ltb_spec i (getDim newPoints)); done || lia.
  - lia.
  - unfold getDim. rewrite length_replicate. lia.
Qed.

(** X1.  Midpoint insertion: entry 2i of the doubled vector is point i and
    entry 2i + 1 is the midpoint of point i and its successor, the last
    point's successor being point 0. *)
Theorem insert_midpoints_entries (points : list (Vec3 F)) (i : Z) (p q : Vec3 F) :
  rd points i = Some p ->
  rd points (Z.rem (i + 1) (getDim points)) = Some q ->
  rd (insert_midpoints points) (2 * i) = Some p /\
  rd (insert_midpoints points) (2 * i + 1) = Some (vmul (vadd p q) fhalf).
Proof.
  intros Hp Hq. rewrite <- (at_rd _ _ _ Hp), <- (at_rd _ _ _ Hq).
  apply insert_midpoints_at. by apply (rd_in_range _ _ p).
Qed.

(** X2.  One averaging pass replaces every point by the average of itself
    and its predecessor, the predecessor of point 0 being the last point;
    the size is kept. *)
Theorem averaging_pass_entries (newPoints : list (Vec3 F)) (i : Z) (p q : Vec3 F) :
  rd newPoints i = Some p ->
  rd newPoints (Z.rem (i - 1 + getDim newPoints) (getDim newPoints)) = Some q ->
  rd (averaging_pass newPoints) i = Some (vmul (vadd p q) fhalf) /\
  getDim (averaging_pass newPoints) = getDim newPoints.
Proof.
  intros Hp Hq. rewrite <- (at_rd _ _ _ Hp), <- (at_rd _ _ _ Hq).
  split; [|apply getDim_averaging_pass].
  apply averaging_pass_at. by apply (rd_in_range _ _ p).
Qed.

Lemma Forall_at (P : Vec3 F -> Prop) (v : list (Vec3 F)) (i : Z) :
  Forall P v -> (0 <= i < getDim v)%Z -> P (at_ v i).
Proof.
  intros Hall Hi. pose proof (rd_at v i Hi) as Hrd.
  replace i with (Z.of_nat (Z.to_nat i)) in Hrd at 1 by lia.
  rewrite rd_of_nat in Hrd. by eapply Forall_lookup_1.
Qed.

Lemma Forall_rd (P : Vec3 F -> Prop) (v : list (Vec3 F)) :
  (forall i : Z, (0 <= i < getDim v)%Z -> exists x, rd v i = Some x /\ P x) ->
  Forall P v.
Proof.
  intros Hall. apply Forall_lookup. intros j x Hx.
  destruct (Hall (Z.of_nat j)) as (y & Hy & HP).
  - apply lookup_lt_Some in Hx. unfold getDim. lia.
  - rewrite rd_of_nat, Hx in Hy. by injection Hy as ->.
Qed.

Section Closed.
Variable P : Vec3 F -> Prop.
Hypothesis P_midpoint : forall a b, P a -> P b -> P (vmul (vadd a b) fhalf).

Lemma Forall_insert_midpoints (points : list (Vec3 F)) :
  Forall P points -> Forall P (insert_midpoints points).
Proof.
  intros Hall. apply Forall_rd. rewrite getDim_insert_midpoints. intros j Hj.
  assert (Hnext : forall k, (0 <= k < getDim points)%Z ->
            (0 <= Z.rem (k + 1) (getDim points) < getDim points)%Z)
    by (intros k Hk; apply Z.rem_bound_pos; lia).
  destruct (Z.Even_or_Odd j) as [[k ->]|[k ->]];
    destruct (insert_midpoints_at points k) as [Heven Hodd]; try lia.
  - exists (at_ points k). split; [done|]. apply Forall_at; [done|lia].
  - eexists. split; [exact Hodd|].
    apply P_midpoint; apply Forall_at; try done; [lia|apply Hnext; lia].
Qed.

Lemma Forall_averaging_pass (newPoints : list (Vec3 F)) :
  Forall P newPoints -> Forall P (averaging_pass newPoints).
Proof.
  intros Hall. apply Forall_rd. rewrite getDim_averaging_pass. intros i Hi.
  eexists. split; [by apply averaging_pass_at|].
  apply P_midpoint; apply Forall_at; try done.
  apply Z.rem_bound_pos; lia.
Qed.

Lemma Forall_laneRiesenfeldSubdivision (controlPts : list (Vec3 F)) (degree : Z) :
  Forall P controlPts -> Forall P (laneRiesenfeldSubdivision controlPts degree).
Proof.
  intros Hall. unfold laneRiesenfeldSubdivision.
  set (points := for_loop _ _ _ _).
  assert (Hpoints : Forall P points).
  { apply for_loop_invariant; [done|]. intros iter pts _ Hpts.
    apply for_loop_invariant; [by apply Forall_insert_midpoints|].
    intros avg new _ Hnew. by apply Forall_averaging_pass. }
  destruct (Z.ltb_spec 1 (getDim points)); [|done].
  apply Forall_insert; [done|]. apply Forall_at; [done|lia].
Qed.

End Closed.

(** X3.  The refinement only ever takes midpoints: a property of points
    that midpoints inherit and that every control point has, is had by
    every entry of the stored table, for every polygon size and degree. *)
Theorem table_inherits_midpoint_closed (P : Vec3 F -> Prop)
    (controlPts : list (Vec3 F)) (degree : Z) :
  (forall a b, P a -> P b -> P (vmul (vadd a b) fhalf)) ->
  Forall P controlPts ->
  Forall P (subdividedPoints (make controlPts degree)).
Proof. intros Hmid Hall. by apply Forall_laneRiesenfeldSubdivision. Qed.

(** X4.  A negative degree is accepted and gives the table of degree 0:
    the loops do not run and only the closure correction acts. *)
Theorem nonpositive_degree_is_degree_zero (controlPts : list (Vec3 F)) (degree : Z) :
  (degree <= 0)%Z ->
  laneRiesenfeldSubdivision controlPts degree
  = laneRiesenfeldSubdivision controlPts 0 /\
  getDim (laneRiesenfeldSubdivision controlPts degree) = getDim controlPts.
Proof.
  intros Hdeg. unfold laneRiesenfeldSubdivision.
  rewrite !for_loop_empty by lia. split; [done|].
  destruct (1 <? getDim controlPts)%Z; by rewrite ?getDim_insert.
Qed.

End SubdivisionContent.

Section SubdivisionNatural.
Context {F : Type} `{FloatOps F}.
Import ClosedSubdivisionCurve.


Variable h : Vec3 F -> Vec3 F.
Hypothesis h_midpoint :
  forall a b, h (vmul (vadd a b) fhalf) = vmul (vadd (h a) (h b)) fhalf.








End SubdivisionNatural.

Section SubdivisionGeometry.
Import ClosedSubdivisionCurve.
Local Open Scope R_scope.


Lemma below_midpoint (a b c k : R) (p q : Vec3 R) :
  below a b c k p -> below a b c k q -> below a b c k (vmul (vadd p q) fhalf).
Proof.
  destruct p, q. unfold below, vadd, vmul, fhalf. cbn. intros Hp Hq. lra.
Qed.






End SubdivisionGeometry.

Section DegreeOne.
Context {F : Type} `{FloatOps F}.
Import ClosedSubdivisionCurve.

Lemma laneRiesenfeldSubdivision_one (controlPts : list (Vec3 F)) :
  (2 <= getDim controlPts)%Z ->
  laneRiesenfeldSubdivision controlPts 1
  = <[Z.to_nat (2 * getDim controlPts - 1) := at_ controlPts 0]>
      (insert_midpoints controlPts).
Proof.
  intros Hn. unfold laneRiesenfeldSubdivision.
  rewrite (for_loop_last 0 1) by lia. rewrite !for_loop_empty by lia.
  rewrite getDim_insert_midpoints.
  destruct (Z.ltb_spec 1 (2 * getDim controlPts)); [|lia].
  destruct (insert_midpoints_at controlPts 0) as [Hfirst _]; [lia|].
  by rewrite (at_rd _ _ _ Hfirst).
Qed.

(** X8.  With degree 1 no averaging pass runs: the table keeps control
    point i at entry 2i and holds the midpoint of control points i and i + 1
    at entry 2i + 1, except that its last entry, the midpoint of the closing
    edge, is replaced by control point 0. *)
Theorem degree_one_table (controlPts : list (Vec3 F)) (i : Z) (p q p0 : Vec3 F) :
  let n := getDim controlPts in
  let table := subdividedPoints (make controlPts 1) in
  (2 <= n)%Z ->
  rd controlPts i = Some p -> rd controlPts (i + 1) = Some q ->
  rd controlPts 0 = Some p0 ->
  rd table (2 * i) = Some p /\
  rd table (2 * i + 1) = Some (vmul (vadd p q) fhalf) /\
  rd table (2 * (n - 1)) = rd controlPts (n - 1) /\
  rd table (2 * n - 1) = Some p0.
Proof.
  intros n table Hn Hp Hq Hp0. subst table. cbn [subdividedPoints make].
  rewrite laneRiesenfeldSubdivision_one by done. fold n.
  pose proof (rd_in_range _ _ _ Hp) as Hi. pose proof (rd_in_range _ _ _ Hq) as Hi1.
  fold n in Hi, Hi1.
  destruct (insert_midpoints_at controlPts i) as [Heven Hodd]; [fold n; lia|].
  fold n in Hodd. rewrite Z.rem_small in Hodd by lia.
  rewrite (at_rd _ _ _ Hp) in Heven, Hodd. rewrite (at_rd _ _ _ Hq) in Hodd.
  destruct (insert_midpoints_at controlPts (n - 1)) as [Hlast _]; [fold n; lia|].
  rewrite !rd_insert_ne by lia. rewrite Heven, Hodd, Hlast.
  rewrite (rd_at controlPts (n - 1)) by (fold n; lia).
  repeat split. rewrite (at_rd _ _ _ Hp0). apply rd_insert_eq.
  rewrite getDim_insert_midpoints. fold n. lia.
Qed.

End DegreeOne.

Section SubdivisionWitnesses.
Import ClosedSubdivisionCurve.

Lemma insert_midpoints_entries_witness :
  let points := @unit_square Q _ in
  let p := mkVec3 (inject_Z (-1)) (inject_Z 1) (inject_Z 0) in
  let q := mkVec3 (inject_Z (-1)) (inject_Z (-1)) (inject_Z 0) in
  rd points 3 = Some p /\
  rd points (Z.rem (3 + 1) (getDim points)) = Some q /\
  rd (insert_midpoints points) (2 * 3) = Some p /\
  rd (insert_midpoints points) (2 * 3 + 1) = Some (vmul (vadd p q) fhalf).
Proof.
  intros points p q.
  assert (Hp : rd points 3 = Some p) by reflexivity.
  assert (Hq : rd points (Z.rem (3 + 1) (getDim points)) = Some q) by reflexivity.
  split; [exact Hp|]. split; [exact Hq|].
  exact (insert_midpoints_entries points 3 p q Hp Hq).
Defined.

Lemma averaging_pass_entries_witness :
  let points := @unit_square Q _ in
  let p := mkVec3 (inject_Z (-1)) (inject_Z (-1)) (inject_Z 0) in
  let q := mkVec3 (inject_Z (-1)) (inject_Z 1) (inject_Z 0) in
  rd points 0 = Some p /\
  rd points (Z.rem (0 - 1 + getDim points) (getDim points)) = Some q /\
  rd (averaging_pass points) 0 = Some (vmul (vadd p q) fhalf) /\
  getDim (averaging_pass points) = getDim points.
Proof.
  intros points p q.
  assert (Hp : rd points 0 = Some p) by reflexivity.
  assert (Hq : rd points (Z.rem (0 - 1 + getDim points) (getDim points)) = Some q)
    by reflexivity.
  split; [exact Hp|]. split; [exact Hq|].
  exact (averaging_pass_entries points 0 p q Hp Hq).
Defined.

Lemma table_inherits_midpoint_closed_witness :
  let P := below 1 0 0 1 in
  (forall a b, P a -> P b -> P (vmul (vadd a b) fhalf)) /\
  Forall P (@unit_square R _) /\
  Forall P (subdividedPoints (make (@unit_square R _) 3)).
Proof.
  intros P.
  assert (Hmid : forall a b, P a -> P b -> P (vmul (vadd a b) fhalf))
    by (intros a b; apply below_midpoint).
  assert (Hall : Forall P (@unit_square R _))
    by (repeat constructor; unfold P, below; cbn; lra).
  split; [exact Hmid|]. split; [exact Hall|].
  exact (table_inherits_midpoint_closed P unit_square 3 Hmid Hall).
Defined.

Lemma nonpositive_degree_is_degree_zero_witness :
  (-2 <= 0)%Z /\
  laneRiesenfeldSubdivision (@unit_square Q _) (-2)
  = laneRiesenfeldSubdivision (@unit_square Q _) 0 /\
  getDim (laneRiesenfeldSubdivision (@unit_square Q _) (-2))
  = getDim (@unit_square Q _).
Proof.
  assert (Hdeg : (-2 <= 0)%Z) by lia.
  split; [exact Hdeg|].
  exact (nonpositive_degree_is_degree_zero unit_square (-2) Hdeg).
Defined.

Lemma degree_one_table_witness :
  let controlPts := @unit_square Q _ in
  let n := getDim controlPts in
  let table := subdividedPoints (make controlPts 1) in
  let p := mkVec3 (inject_Z 1) (inject_Z (-1)) (inject_Z 0) in
  let q := mkVec3 (inject_Z 1) (inject_Z 1) (inject_Z 0) in
  let p0 := mkVec3 (inject_Z (-1)) (inject_Z (-1)) (inject_Z 0) in
  (2 <= n)%Z /\
  rd controlPts 1 = Some p /\ rd controlPts (1 + 1) = Some q /\
  rd controlPts 0 = Some p0 /\
  rd table (2 * 1) = Some p /\
  rd table (2 * 1 + 1) = Some (vmul (vadd p q) fhalf) /\
  rd table (2 * (n - 1)) = rd controlPts (n - 1) /\
  rd table (2 * n - 1) = Some p0.
Proof.
  intros controlPts n table p q p0.
  assert (Hn : (2 <= n)%Z) by (vm_compute; discriminate).
  assert (Hp : rd controlPts 1 = Some p) by reflexivity.
  assert (Hq : rd controlPts (1 + 1) = Some q) by reflexivity.
  assert (Hp0 : rd controlPts 0 = Some p0) by reflexivity.
  split; [exact Hn|]. split; [exact Hp|]. split; [exact Hq|]. split; [exact Hp0|].
  exact (degree_one_table controlPts 1 p q p0 Hn Hp Hq Hp0).
Defined.

End SubdivisionWitnesses.

Section EmptyPolygon.
Context {F : Type} `{FloatOps F}.
Import ClosedSubdivisionCurve.

Lemma getDim_nil_inv {A : Type} (v : list A) : getDim v = 0%Z -> v = [].
Proof. unfold getDim. destruct v; [done|]. simpl. lia. Qed.

(** X9.  An empty control polygon is accepted: for every degree the
    stored table is empty, and every call of [eval] takes a remainder by
    the table size 0. *)
Theorem empty_polygon (degree : Z) (t : F) (d : Z) :
  subdividedPoints (make [] degree) = [] /\ eval (make [] degree) t d = None.
Proof.
  assert (Htable : laneRiesenfeldSubdivision (@nil (Vec3 F)) degree = []).
  { apply getDim_nil_inv. destruct (Z.le_gt_cases 0 degree) as [Hpos|Hneg].
    - rewrite getDim_laneRiesenfeldSubdivision by done. unfold getDim. simpl. lia.
    - unfold laneRiesenfeldSubdivision. rewrite for_loop_empty by lia. done. }
  split; [exact Htable|]. unfold eval. cbn [subdividedPoints make].
  by rewrite Htable.
Qed.

End EmptyPolygon.

(** ** MyB_spline: the basis on its domain *)

Section BasisFacts.
Import MyB_spline.
Local Open Scope R_scope.

Variable n : Z.
Variable t : R.
Hypothesis Hn : (3 <= n)%Z.
Hypothesis Ht : 0 <= t <= IZR (n - 2).

Local Abbreviation span0 := (active_span n t).

Lemma span0_ge : t <= IZR span0 + 1.
Proof.
  pose proof (Zfloor_bound t) as [_ Hhi]. pose proof (floor_in_domain n t Ht) as Hfl.
  unfold active_span. destruct (Z.min_spec (Zfloor t) (n - 3)) as [[_ ->]|[Hge ->]].
  - lra.
  - replace (n - 3)%Z with (n - 2 - 1)%Z by lia. rewrite minus_IZR. lra.
Qed.

Lemma knot_le (i j : Z) : (i <= j)%Z -> IZR (knot n i) <= IZR (knot n j).
Proof. intros Hij. apply IZR_le. unfold knot. lia. Qed.

Lemma term_nonneg (num denom b : R) :
  b = 0 \/ 0 <= num -> 0 <= denom -> 0 <= b -> 0 <= term num denom b.
Proof.
  intros [->|Hnum] Hdenom Hb; [rewrite term_zero; lra|].
  unfold term. destruct (Reqb denom 0) eqn:Heq; cbn [negb]; [lra|].
  assert (Hpos : 0 < denom).
  { destruct Hdenom as [Hlt|Heq0]; [done|]. symmetry in Heq0.
    apply Reqb_true in Heq0. congruence. }
  apply Rmult_le_pos; [|done]. apply Rmult_le_pos; [done|].
  left. by apply Rinv_0_lt_compat.
Qed.

Lemma basis_val_1_nonneg (i : Z) : (0 <= i <= n)%Z -> 0 <= basis_val n t 1 i.
Proof.
  intros Hi. rewrite (basis_val_1 n t Hn Ht) by done.
  pose proof (span0_le n t). pose proof span0_ge.
  destruct (i =? span0 + 2)%Z; [lra|]. destruct (i =? span0 + 1)%Z; lra.
Qed.

Lemma basis_val_2_nonneg (i : Z) : (0 <= i <= n - 1)%Z -> 0 <= basis_val n t 2 i.
Proof.
  intros Hi. pose proof (span0_bounds n t Hn Ht) as Hs.
  pose proof (span0_le n t) as Hle. pose proof span0_ge as Hge.
  rewrite basis_val_S. change (Z.of_nat 2) with 2%Z.
  apply Rplus_le_le_0_compat; apply term_nonneg.
  - rewrite (basis_val_1 n t Hn Ht) by lia.
    destruct (Z.eqb_spec i (span0 + 2)) as [->|?].
    { right. rewrite (knot_mid n) by lia. rewrite minus_IZR, plus_IZR. lra. }
    destruct (Z.eqb_spec i (span0 + 1)) as [->|?]; [|by left].
    right. assert (Hk : (knot n (span0 + 1) <= span0)%Z) by (unfold knot; lia).
    apply IZR_le in Hk. lra.
  - pose proof (knot_le i (i + 2) ltac:(lia)). lra.
  - apply basis_val_1_nonneg. lia.
  - rewrite (basis_val_1 n t Hn Ht) by lia.
    destruct (Z.eqb_spec (i + 1) (span0 + 2)) as [Heq|?].
    { right. assert (Hk : (span0 + 1 <= knot n (i + 2 + 1))%Z) by (unfold knot; lia).
      apply IZR_le in Hk. rewrite plus_IZR in Hk. lra. }
    destruct (Z.eqb_spec (i + 1) (span0 + 1)) as [Heq|?]; [|by left].
    right. assert (Hk : (span0 + 1 <= knot n (i + 2 + 1))%Z) by (unfold knot; lia).
    apply IZR_le in Hk. rewrite plus_IZR in Hk. lra.
  - pose proof (knot_le (i + 1) (i + 2 + 1) ltac:(lia)). lra.
  - apply basis_val_1_nonneg. lia.
Qed.

Lemma basis_val_2_le_1 (i : Z) : (0 <= i <= n - 1)%Z -> basis_val n t 2 i <= 1.
Proof.
  intros Hi. pose proof (span0_bounds n t Hn Ht) as Hs.
  pose proof (basis_val_2_active n t Hn Ht) as Hsum.
  pose proof (basis_val_2_nonneg span0 ltac:(lia)).
  pose proof (basis_val_2_nonneg (span0 + 1) ltac:(lia)).
  pose proof (basis_val_2_nonneg (span0 + 2) ltac:(lia)).
  destruct (decide (i < span0 \/ span0 + 2 < i)%Z) as [Hout|Hin].
  { rewrite (basis_val_2_outside n t Hn Ht) by done. lra. }
  assert (Hcases : i = span0 \/ i = (span0 + 1)%Z \/ i = (span0 + 2)%Z) by lia.
  destruct Hcases as [-> | [-> | ->]]; lra.
Qed.

(** Outside the knots [i .. i + 3] basis function [i] vanishes. *)
Lemma basis_val_2_support (i : Z) :
  (0 <= i <= n - 1)%Z ->
  t < IZR (knot n i) \/ IZR (knot n (i + 3)) < t ->
  basis_val n t 2 i = 0.
Proof.
  intros Hi Hout. pose proof (span0_bounds n t Hn Ht) as Hs.
  pose proof (span0_le n t) as Hle. pose proof span0_ge as Hge.
  apply (basis_val_2_outside n t Hn Ht); [done|].
  destruct Hout as [Hlt|Hgt].
  - right. assert (Hk : IZR span0 < IZR (knot n i)) by lra.
    apply lt_IZR in Hk. unfold knot in Hk. lia.
  - left. assert (Hk : IZR (knot n (i + 3)) < IZR (span0 + 1))
      by (rewrite plus_IZR; lra).
    apply lt_IZR in Hk. unfold knot in Hk. lia.
Qed.

End BasisFacts.

Section BasisClaims.
Import MyB_spline.
Local Open Scope R_scope.




(** X11.  On the domain every basis function of degree 2 has a value in
    [0, 1], and basis function i vanishes when t lies outside the knots
    i .. i + 3. *)
Theorem basis_bounded_and_local (controlPoints : list (Vec3 R)) (t : R) (i : Z) :
  let n := getDim controlPoints in
  let s := make controlPoints in
  (3 <= n)%Z -> 0 <= t <= IZR (n - 2) -> (0 <= i < n)%Z ->
  exists b, evaluateBasis s i 2 t = Some b /\ 0 <= b <= 1 /\
    (forall lo hi, rd (knotVector s) i = Some lo ->
                   rd (knotVector s) (i + 3) = Some hi ->
                   t < lo \/ hi < t -> b = 0).
Proof.
  intros n s Hn Ht Hi. exists (basis_val n t 2 i).
  split; [apply (evaluateBasis_basis_val controlPoints t 2 i Hn); simpl; lia|].
  split; [split; [apply basis_val_2_nonneg|apply basis_val_2_le_1]; done || lia|].
  intros lo hi Hlo Hhi Hout. subst s. cbn [make knotVector] in Hlo, Hhi.
  rewrite (rd_generateKnotVector controlPoints) in Hlo, Hhi by (fold n; lia).
  fold n in Hlo, Hhi. injection Hlo as <-. injection Hhi as <-.
  apply basis_val_2_support; done || lia.
Qed.

Lemma basis_bounded_and_local_witness :
  let controlPoints := @unit_square R _ in
  let n := getDim controlPoints in
  let s := make controlPoints in
  (3 <= n)%Z /\ 0 <= 1 / 2 <= IZR (n - 2) /\ (0 <= 3 < n)%Z /\
  exists b, evaluateBasis s 3 2 (1 / 2) = Some b /\ 0 <= b <= 1 /\
    (forall lo hi, rd (knotVector s) 3 = Some lo ->
                   rd (knotVector s) (3 + 3) = Some hi ->
                   1 / 2 < lo \/ hi < 1 / 2 -> b = 0).
Proof.
  intros controlPoints n s.
  assert (Hn : (3 <= n)%Z) by (vm_compute; discriminate).
  assert (Ht : 0 <= 1 / 2 <= IZR (n - 2)) by (vm_compute (n - 2)%Z; lra).
  assert (Hi : (0 <= 3 < n)%Z) by (vm_compute; split; discriminate || reflexivity).
  split; [exact Hn|]. split; [exact Ht|]. split; [exact Hi|].
  exact (basis_bounded_and_local controlPoints (1 / 2) 3 Hn Ht Hi).
Defined.

End BasisClaims.

(** ** MyB_spline: the position *)

Section SplineEval.
Import MyB_spline.
Local Open Scope R_scope.





End SplineEval.

Section SplineProps.
Import MyB_spline.
Local Open Scope R_scope.











End SplineProps.

(** ** MyB_spline: outside the domain, and too few control points *)

Section SplineEdges.
Import MyB_spline.
Local Open Scope R_scope.








(** A step of the recursion whose two knot differences vanish. *)
Lemma evaluateBasis_degenerate (s : MyB_spline.t R) (i : Z) (degree : nat) (t x y : R) :
  rd (knotVector s) (i + Z.of_nat (S degree)) = Some x ->
  rd (knotVector s) i = Some x ->
  rd (knotVector s) (i + Z.of_nat (S degree) + 1) = Some y ->
  rd (knotVector s) (i + 1) = Some y ->
  evaluateBasis s i (S degree) t = Some (0 + 0).
Proof.
  intros Ha Hb Hc Hd. cbn [evaluateBasis]. rewrite Ha, Hb, Hc, Hd.
  cbn [mbind option_bind fsub feqb f0 of_int R_ops].
  assert (Hx : Reqb (x - x) 0 = true) by (apply Reqb_true; ring).
  assert (Hy : Reqb (y - y) 0 = true) by (apply Reqb_true; ring).
  rewrite Hx, Hy. reflexivity.
Qed.

(** X15.  Two control points are accepted, but every knot is then 0 and
    every span is empty: each basis function is 0 for every t, and [eval]
    returns the origin whatever the two points are. *)
Theorem two_control_points_degenerate (a b : Vec3 R) (t : R) :
  generateKnotVector [a; b] = [0; 0; 0; 0; 0] /\
  evaluateBasis (make [a; b]) 0 2 t = Some 0 /\
  evaluateBasis (make [a; b]) 1 2 t = Some 0 /\
  eval (make [a; b]) t 0 = Some [Some vzero].
Proof.
  assert (Hkv : generateKnotVector [a; b] = [0; 0; 0; 0; 0]) by reflexivity.
  assert (Hb : forall i, (i = 0 \/ i = 1)%Z ->
                 evaluateBasis (make [a; b]) i 2 t = Some (0 + 0)).
  { intros i [-> | ->];
      apply (evaluateBasis_degenerate (make [a; b]) _ 1 t 0 0); reflexivity. }
  split; [done|].
  split; [rewrite Hb by (by left); f_equal; ring|].
  split; [rewrite Hb by (by right); f_equal; ring|].
  unfold eval. change (Z.to_nat (0 + 1)) with 1%nat. cbn [replicate].
  rewrite wr_head. cbn [mbind option_bind].
  change (getDim (controlPoints (make [a; b]))) with 2%Z.
  unfold for_loop. change (seqZ 0 (2 - 0)) with [0%Z; 1%Z]. cbn [foldl mbind option_bind].
  rewrite (Hb 0%Z) by (by left). cbn [mbind option_bind].
  rewrite rd_head. cbn [mjoin option_join mbind option_bind].
  rewrite wr_head. cbn [mbind option_bind].
  rewrite (Hb 1%Z) by (by right). cbn [mbind option_bind].
  rewrite rd_head. cbn [mjoin option_join mbind option_bind].
  rewrite wr_head. do 3 f_equal.
  destruct a, b. unfold vadd, smul, vzero, f0, at_. cbn. f_equal; ring.
Qed.

End SplineEdges.

(** ** MyB_spline: the pieces of the least-squares fit *)

Section FitSpan.
Import MyB_spline.
Local Open Scope R_scope.

Lemma find_span_floor (controlPoints : list (Vec3 R)) (t : R) :
  let n := getDim controlPoints in
  (3 <= n)%Z -> 0 <= t <= IZR (n - 2) ->
  find_span (generateKnotVector controlPoints) n t = Some (active_span n t + 2)%Z.
Proof.
  intros n Hn Ht. pose proof (floor_in_domain n t Ht) as Hfl.
  unfold find_span.
  set (body := fun (j : Z) (acc : option Z) => _).
  assert (Hloop : for_loop 2 n body (Some (-1)%Z)
                  = Some (if (Zfloor t + 2 <? n)%Z then (Zfloor t + 2)%Z else (-1)%Z)).
  { apply (for_loop_rounds
             (fun j acc => acc = Some (if (Zfloor t + 2 <? j)%Z
                                       then (Zfloor t + 2)%Z else (-1)%Z)));
      [lia| |].
    - by destruct (Z.ltb_spec (Zfloor t + 2) 2); [lia|].
    - intros j acc Hj ->. subst body. cbv beta. cbn [mbind option_bind].
      destruct (Z.ltb_spec (Zfloor t + 2) j) as [Hdone|Hnot].
      + destruct (Z.eqb_spec (Zfloor t + 2) (-1)); [lia|]. cbn [negb].
        by destruct (Z.ltb_spec (Zfloor t + 2) (j + 1)); [|lia].
      + change (-1 =? -1)%Z with true. cbn [negb].
        rewrite !(rd_generateKnotVector controlPoints) by (fold n; lia). fold n.
        cbn [mbind option_bind of_int fleb fltb R_ops].
        rewrite Rleb_IZR_floor, Rltb_IZR_floor, !(knot_mid n) by lia.
        destruct (Z.leb_spec (j - 2) (Zfloor t)); cbn [mbind option_bind].
        * destruct (Z.ltb_spec (Zfloor t) (j + 1 - 2)),
            (Z.ltb_spec (Zfloor t + 2) (j + 1)); try lia; f_equal; lia.
        * destruct (Z.ltb_spec (Zfloor t + 2) (j + 1)); [lia|done]. }
  rewrite Hloop. cbn [mbind option_bind]. f_equal. unfold active_span.
  destruct (Z.ltb_spec (Zfloor t + 2) n).
  - destruct (Z.eqb_spec (Zfloor t + 2) (-1)); lia.
  - change (-1 =? -1)%Z with true. cbv iota. lia.
Qed.



End FitSpan.

Section FitRow.
Context {F : Type} `{FloatOps F}.
Import MyB_spline.

Lemma basis_row_weights (kv : list F) (span : Z) (t ka k0 k1 kb : F) :
  rd kv (span - 1) = Some ka -> rd kv span = Some k0 ->
  rd kv (span + 1) = Some k1 -> rd kv (span + 2) = Some kb ->
  basis_row kv span t = Some (row_weights t ka k0 k1 kb).
Proof.
  intros Ha H0 H1 Hb. unfold basis_row, for_loop.
  change (seqZ 1 (2 + 1 - 1)) with [1%Z; 2%Z]. cbn [foldl].
  change (seqZ 0 (1 - 0)) with [0%Z]. change (seqZ 0 (2 - 0)) with [0%Z; 1%Z].
  cbn [foldl mbind option_bind].
  replace (span + 1 - 1)%Z with span by lia.
  replace (span + 0 + 1)%Z with (span + 1)%Z by lia.
  replace (span + 0)%Z with span by lia.
  replace (span + 1 - 2)%Z with (span - 1)%Z by lia.
  replace (span - 1 + 0)%Z with (span - 1)%Z by lia.
  replace (span + 1 + 1)%Z with (span + 2)%Z by lia.
  replace (span - 1 + 1)%Z with span by lia.
  rewrite Ha, H0, H1, Hb.
  change (Z.to_nat (2 + 1)) with 3%nat. cbn [replicate].
  change (<[0%nat := f1]> [f0; f0; f0]) with [f1; f0; f0].
  cbn [mbind option_bind]. rewrite rd_head. cbn [mbind option_bind].
  rewrite wr_head. cbn [mbind option_bind]. rewrite wr_second.
  cbn [mbind option_bind]. rewrite rd_head. cbn [mbind option_bind].
  rewrite wr_head. cbn [mbind option_bind].
  change (rd (?a :: ?b :: ?c) 1) with (Some b).
  cbn [mbind option_bind]. rewrite wr_second. cbn [mbind option_bind].
  rewrite wr_third. reflexivity.
Qed.

End FitRow.

Section FitRowReal.
Import MyB_spline.
Local Open Scope R_scope.

Lemma basis_val_2_first (n : Z) (t : R) :
  (3 <= n)%Z -> 0 <= t <= IZR (n - 2) ->
  let s0 := active_span n t in
  basis_val n t 2 s0
  = (IZR s0 + 1 - t) / (IZR s0 + 1 - IZR (knot n (s0 + 1))) * (IZR s0 + 1 - t).
Proof.
  intros Hn Ht s0. pose proof (span0_bounds n t Hn Ht) as Hs. fold s0 in Hs.
  rewrite basis_val_S, !(basis_val_1 n t Hn Ht) by (fold s0; lia). fold s0.
  change (Z.of_nat 2) with 2%Z.
  destruct (Z.eqb_spec s0 (s0 + 2)); [lia|].
  destruct (Z.eqb_spec s0 (s0 + 1)); [lia|].
  destruct (Z.eqb_spec (s0 + 1) (s0 + 2)); [lia|].
  destruct (Z.eqb_spec (s0 + 1) (s0 + 1)); [|lia].
  rewrite term_zero.
  replace (knot n (s0 + 2 + 1)) with (s0 + 1)%Z by (unfold knot; lia).
  assert (Ha : (knot n (s0 + 1) <= s0)%Z) by (unfold knot; lia).
  apply IZR_le in Ha. rewrite plus_IZR.
  rewrite term_nonzero by lra. ring.
Qed.

Lemma basis_val_2_last (n : Z) (t : R) :
  (3 <= n)%Z -> 0 <= t <= IZR (n - 2) ->
  let s0 := active_span n t in
  basis_val n t 2 (s0 + 2)
  = (t - IZR s0) / (IZR (knot n (s0 + 4)) - IZR s0) * (t - IZR s0).
Proof.
  intros Hn Ht s0. pose proof (span0_bounds n t Hn Ht) as Hs. fold s0 in Hs.
  rewrite basis_val_S, !(basis_val_1 n t Hn Ht) by (fold s0; lia). fold s0.
  change (Z.of_nat 2) with 2%Z.
  destruct (Z.eqb_spec (s0 + 2) (s0 + 2)); [|lia].
  destruct (Z.eqb_spec (s0 + 2 + 1) (s0 + 2)); [lia|].
  destruct (Z.eqb_spec (s0 + 2 + 1) (s0 + 1)); [lia|].
  rewrite term_zero.
  replace (s0 + 2 + 2)%Z with (s0 + 4)%Z by lia.
  replace (knot n (s0 + 2)) with s0 by (unfold knot; lia).
  assert (Hb : (s0 + 1 <= knot n (s0 + 4))%Z) by (unfold knot; lia).
  apply IZR_le in Hb. rewrite plus_IZR in Hb.
  rewrite term_nonzero by lra. ring.
Qed.

Lemma active_span_first (n : Z) (t : R) :
  (3 <= n)%Z -> 0 <= t -> t < 1 \/ n = 3%Z -> active_span n t = 0%Z.
Proof.
  intros Hn Ht0 Hcase. unfold active_span.
  assert (H0 : (0 <= Zfloor t)%Z) by (by apply Zfloor_lub).
  destruct Hcase as [Hlt| ->]; [|lia].
  assert (Zfloor t = 0%Z) by (apply Zfloor_eq; simpl; lra). lia.
Qed.

(** X17.  With 3 control points (one span) the weights [basis_row] computes
    on the generated knot vector are the three basis values
    [evaluateBasis] gives, for every t of the domain [0, 1]. *)
Theorem fit_row_single_span (controlPoints : list (Vec3 R)) (t : R) :
  let kv := generateKnotVector controlPoints in
  let s := make controlPoints in
  getDim controlPoints = 3%Z -> 0 <= t <= 1 ->
  find_span kv 3 t = Some 2%Z /\
  exists w0 w1 w2,
    basis_row kv 2 t = Some [w0; w1; w2] /\
    evaluateBasis s 0 2 t = Some w0 /\
    evaluateBasis s 1 2 t = Some w1 /\
    evaluateBasis s 2 2 t = Some w2.
Proof.
  intros kv s Hdim Ht.
  assert (Hn : (3 <= getDim controlPoints)%Z) by lia.
  assert (Ht' : 0 <= t <= IZR (getDim controlPoints - 2))
    by (rewrite Hdim; change (3 - 2)%Z with 1%Z; lra).
  assert (Hs0 : active_span 3 t = 0%Z) by (apply active_span_first; lra || lia || by right).
  split.
  { pose proof (find_span_floor controlPoints t Hn Ht') as Hspan.
    rewrite Hdim, Hs0 in Hspan. exact Hspan. }
  assert (Hrd : forall i, (0 <= i < 6)%Z -> rd kv i = Some (IZR (knot 3 i))).
  { intros i Hi. subst kv. rewrite (rd_generateKnotVector controlPoints) by lia.
    by rewrite Hdim. }
  rewrite (basis_row_weights kv 2 t 0 0 1 1) by (rewrite Hrd by lia; reflexivity).
  eexists _, _, _. split; [reflexivity|].
  subst s. rewrite !(evaluateBasis_basis_val controlPoints t 2 _ Hn) by (simpl; lia).
  rewrite Hdim. rewrite Hdim in Ht'.
  pose proof (basis_val_2_first 3 t ltac:(lia) Ht') as Hfirst.
  pose proof (basis_val_2_last 3 t ltac:(lia) Ht') as Hlast.
  pose proof (basis_val_2_active 3 t ltac:(lia) Ht') as Hsum.
  cbv zeta in Hfirst, Hlast. rewrite Hs0 in Hfirst, Hlast, Hsum.
  change (knot 3 (0 + 1)) with 0%Z in Hfirst.
  change (knot 3 (0 + 4)) with 1%Z in Hlast.
  change (0 + 1)%Z with 1%Z in Hsum. change (0 + 2)%Z with 2%Z in Hsum, Hlast.
  assert (Hmid : basis_val 3 t 2 1
                 = 1 - basis_val 3 t 2 0 - basis_val 3 t 2 2) by lra.
  rewrite Hmid, Hfirst, Hlast. cbn [fadd fsub fmul fdiv f0 f1 of_int R_ops].
  repeat split; f_equal; field.
Qed.

Lemma fit_row_single_span_witness :
  let controlPoints := [@vzero R _; vzero; vzero] in
  let kv := generateKnotVector controlPoints in
  let s := make controlPoints in
  getDim controlPoints = 3%Z /\ 0 <= 1 / 4 <= 1 /\
  find_span kv 3 (1 / 4) = Some 2%Z /\
  exists w0 w1 w2,
    basis_row kv 2 (1 / 4) = Some [w0; w1; w2] /\
    evaluateBasis s 0 2 (1 / 4) = Some w0 /\
    evaluateBasis s 1 2 (1 / 4) = Some w1 /\
    evaluateBasis s 2 2 (1 / 4) = Some w2.
Proof.
  intros controlPoints kv s.
  assert (Hdim : getDim controlPoints = 3%Z) by reflexivity.
  assert (Ht : 0 <= 1 / 4 <= 1) by lra.
  split; [exact Hdim|]. split; [exact Ht|].
  exact (fit_row_single_span controlPoints (1 / 4) Hdim Ht).
Defined.

(** X18.  With 4 or more control points the rows of the least-squares
    matrix are not the basis: for t in [0, 1), where every sample parameter
    but the last lies, [basis_row] on the generated knot vector gives the
    first weight (2 - t)(1 - t) where [evaluateBasis] gives (1 - t)^2, and
    its three weights sum to 2 - t instead of 1. *)
Theorem fit_row_is_not_the_basis (controlPoints : list (Vec3 R)) (t : R) :
  let n := getDim controlPoints in
  let kv := generateKnotVector controlPoints in
  (4 <= n)%Z -> 0 <= t < 1 ->
  find_span kv n t = Some 2%Z /\
  exists w0 w1 w2 b0,
    basis_row kv 2 t = Some [w0; w1; w2] /\
    w0 = (2 - t) * (1 - t) /\ w0 + w1 + w2 = 2 - t /\
    evaluateBasis (make controlPoints) 0 2 t = Some b0 /\
    b0 = (1 - t) * (1 - t) /\ b0 < w0.
Proof.
  intros n kv Hn Ht.
  assert (Hn3 : (3 <= n)%Z) by lia.
  assert (Ht' : 0 <= t <= IZR (n - 2)).
  { assert (1 <= IZR (n - 2)) by (apply IZR_le; lia). lra. }
  assert (Hs0 : active_span n t = 0%Z) by (apply active_span_first; lra || lia || by left).
  split.
  { pose proof (find_span_floor controlPoints t Hn3 Ht') as Hspan.
    fold n in Hspan. by rewrite Hs0 in Hspan. }
  assert (Hrd : forall i, (0 <= i < n + 3)%Z -> rd kv i = Some (IZR (knot n i)))
    by (intros i Hi; exact (rd_generateKnotVector controlPoints i Hn3 Hi)).
  rewrite (basis_row_weights kv 2 t 0 0 1 2).
  2-5: rewrite Hrd by lia; do 2 f_equal; unfold knot; lia.
  eexists _, _, _, _. split; [reflexivity|].
  rewrite (evaluateBasis_basis_val controlPoints t 2 0 Hn3) by (fold n; simpl; lia).
  fold n. pose proof (basis_val_2_first n t Hn3 Ht') as Hfirst.
  cbv zeta in Hfirst. rewrite Hs0 in Hfirst.
  replace (knot n (0 + 1)) with 0%Z in Hfirst by (unfold knot; lia).
  cbn [fadd fsub fmul fdiv f0 f1 of_int R_ops].
  split; [field|]. split; [field|]. split; [reflexivity|].
  split; [rewrite Hfirst; field|]. rewrite Hfirst.
  replace (0 + (2 - t) * ((0 + (1 - t) * (1 / (1 - 0))) / (1 - 0)))
    with ((2 - t) * (1 - t)) by field.
  replace ((0 + 1 - t) / (0 + 1 - 0) * (0 + 1 - t)) with ((1 - t) * (1 - t)) by field.
  nra.
Qed.

Lemma fit_row_is_not_the_basis_witness :
  let controlPoints := @unit_square R _ in
  let n := getDim controlPoints in
  let kv := generateKnotVector controlPoints in
  (4 <= n)%Z /\ 0 <= 1 / 2 < 1 /\
  find_span kv n (1 / 2) = Some 2%Z /\
  exists w0 w1 w2 b0,
    basis_row kv 2 (1 / 2) = Some [w0; w1; w2] /\
    w0 = (2 - 1 / 2) * (1 - 1 / 2) /\ w0 + w1 + w2 = 2 - 1 / 2 /\
    evaluateBasis (make controlPoints) 0 2 (1 / 2) = Some b0 /\
    b0 = (1 - 1 / 2) * (1 - 1 / 2) /\ b0 < w0.
Proof.
  intros controlPoints n kv.
  assert (Hn : (4 <= n)%Z) by (vm_compute; discriminate).
  assert (Ht : 0 <= 1 / 2 < 1) by lra.
  split; [exact Hn|]. split; [exact Ht|].
  exact (fit_row_is_not_the_basis controlPoints (1 / 2) Hn Ht).
Defined.

End FitRowReal.

Section FitMatrix.
Context {F : Type} `{FloatOps F}.
Import MyB_spline.




Lemma basis_row_empty_knots (span : Z) (t : F) : basis_row [] span t = None.
Proof.
  unfold basis_row. apply for_loop_fails; [done|lia|].
  cbn [mbind option_bind].
  assert (Hrd : rd (@nil F) (span + 1 - 1) = None)
    by (unfold rd; destruct (_ <? 0)%Z; [done|apply lookup_nil]).
  by rewrite Hrd.
Qed.

Lemma basis_matrix_no_knots (m n : Z) : (1 <= m)%Z -> basis_matrix [] m n = None.
Proof.
  intros Hm. unfold basis_matrix. apply for_loop_fails; [done|lia|].
  cbn [mbind option_bind]. destruct (find_span [] n _); [|done].
  cbn [mbind option_bind]. by rewrite basis_row_empty_knots.
Qed.

Variable transpose : list (list F) -> list (list F).
Variable mat_mul : list (list F) -> list (list F) -> list (list F).
Variable invert : list (list F) -> list (list F).
Variable mat_apply : list (list F) -> list (Vec3 F) -> list (Vec3 F).

(** X20.  The fitted constructor never produces a curve from samples: for
    every non-empty sample list and every requested number of control
    points, also below 3, the fit reads the knot vector before it has been
    generated, whatever the matrix operations are. *)
Theorem fitted_constructor_never_fits (p : list (Vec3 F)) (n : Z) :
  p <> [] ->
  make_fitted transpose mat_mul invert mat_apply p n = None.
Proof.
  intros Hp. unfold make_fitted, leastSquaresFit.
  destruct p as [|v p]; [done|].
  by rewrite basis_matrix_no_knots by (unfold getDim; simpl; lia).
Qed.

End FitMatrix.


Lemma fitted_constructor_never_fits_witness :
  [@vzero Q _] <> [] /\
  MyB_spline.make_fitted (F := Q) (fun a => a) (fun a _ => a) (fun a => a) (fun _ v => v)
                         [vzero] 2 = None.
Proof.
  assert (Hp : [@vzero Q _] <> []) by discriminate.
  split; [exact Hp|].
  exact (fitted_constructor_never_fits (fun a => a) (fun a _ => a) (fun a => a) (fun _ v => v)
                                       [vzero] 2 Hp).
Defined.

(** ** TorusKnot: period, surface and speed *)

Section TorusGeometry.
Local Open Scope R_scope.








End TorusGeometry.

(** * Binary32 arithmetic

    Facts on the rounding of [Binary32]: a rounded value is a binary32
    value, rounding never crosses a binary32 value, and a binary32 value
    rounds to itself. *)

Section Binary32Facts.
Import Binary32.
Local Open Scope Z_scope.

(** *** Digits and spacing *)

Lemma digits_nonneg (u : Z) : 0 <= digits u.
Proof. apply Z.log2_nonneg. Qed.

Lemma digits_eq (u : Z) : 0 < u -> digits u = Z.log2 u + 1.
Proof.
  intros Hu. unfold digits.
  replace (2 * u) with (u * 2 ^ 1) by lia.
  rewrite Z.log2_mul_pow2 by lia. lia.
Qed.

Lemma digits_spec (u : Z) : 0 < u -> 2 ^ (digits u - 1) <= u < 2 ^ digits u.
Proof.
  intros Hu. rewrite digits_eq by done.
  replace (Z.log2 u + 1 - 1) with (Z.log2 u) by lia.
  replace (Z.log2 u + 1) with (Z.succ (Z.log2 u)) by lia.
  apply Z.log2_spec; lia.
Qed.

Lemma digits_pos (u : Z) : 0 < u -> 1 <= digits u.
Proof.
  intros Hu. rewrite digits_eq by done. pose proof (Z.log2_nonneg u). lia.
Qed.

Lemma digits_mono (a b : Z) : a <= b -> digits a <= digits b.
Proof. intros Hab. apply Z.log2_le_mono. lia. Qed.

Lemma digits_below (u d : Z) : 0 <= d -> u < 2 ^ d -> digits u <= d.
Proof.
  intros Hd Hu. destruct (Z.le_gt_cases u 0) as [Hle|Hpos].
  - unfold digits. rewrite Z.log2_nonpos by lia. done.
  - destruct (digits_spec u Hpos) as [Hlo _].
    pose proof (digits_pos u Hpos).
    assert (2 ^ (digits u - 1) < 2 ^ d) by lia.
    apply Z.pow_lt_mono_r_iff in H0; lia.
Qed.

Lemma digits_above (u d : Z) : 0 <= d -> 2 ^ d <= u -> d + 1 <= digits u.
Proof.
  intros Hd Hu. assert (Hpos : 0 < u) by (pose proof (Z.pow_pos_nonneg 2 d); lia).
  destruct (digits_spec u Hpos) as [_ Hhi].
  assert (2 ^ d < 2 ^ digits u) by lia.
  apply Z.pow_lt_mono_r_iff in H; [lia|lia|apply digits_nonneg].
Qed.

Lemma pow2_divide (a b : Z) : 0 <= a <= b -> (2 ^ a | 2 ^ b).
Proof.
  intros Hab. exists (2 ^ (b - a)). rewrite <- Z.pow_add_r by lia. f_equal. lia.
Qed.

Lemma ulp_of_pos (u : Z) : 0 < ulp_of u.
Proof. unfold ulp_of. apply Z.pow_pos_nonneg; lia. Qed.

Lemma ulp_of_mono (a b : Z) : a <= b -> (ulp_of a | ulp_of b).
Proof.
  intros Hab. unfold ulp_of. apply pow2_divide.
  pose proof (digits_mono a b Hab). lia.
Qed.

(** The spacing at [f] divides every power of two from the binade of [f]
    on. *)
Lemma ulp_of_divide_pow (f e : Z) : 0 <= e -> digits f - 1 <= e -> (ulp_of f | 2 ^ e).
Proof. intros He Hd. unfold ulp_of. apply pow2_divide. lia. Qed.

(** *** Rounding to the nearest integer *)

Lemma rne_int_le (p q j : Z) : 0 < q -> p <= j * q -> rne_int p q <= j.
Proof.
  intros Hq Hj. unfold rne_int.
  pose proof (Z.div_mod p q ltac:(lia)) as Hdm.
  pose proof (Z.mod_pos_bound p q Hq) as Hr.
  repeat case_match; nia.
Qed.

Lemma rne_int_ge (p q j : Z) : 0 < q -> j * q <= p -> j <= rne_int p q.
Proof.
  intros Hq Hj. unfold rne_int.
  pose proof (Z.div_mod p q ltac:(lia)) as Hdm.
  pose proof (Z.mod_pos_bound p q Hq) as Hr.
  repeat case_match; nia.
Qed.

Lemma rne_int_exact (q j : Z) : 0 < q -> rne_int (j * q) q = j.
Proof.
  intros Hq. apply Z.le_antisymm.
  - apply rne_int_le; lia.
  - apply rne_int_ge; lia.
Qed.

(** *** Rounding to binary32 *)

Section Round.
Variables (neg : bool) (p q : Z).
Hypothesis Hp : 0 <= p.
Hypothesis Hq : 0 < q.

Let f := p / q.
Let w := ulp_of f.
Let m := rne_int p (q * w).

Lemma round_unfold :
  round neg p q = if top_u <=? w * m then Inf neg else Fin neg (w * m).
Proof. reflexivity. Qed.

Lemma f_bounds : f * q <= p < (f + 1) * q.
Proof.
  unfold f. pose proof (Z.div_mod p q ltac:(lia)).
  pose proof (Z.mod_pos_bound p q Hq). nia.
Qed.

Lemma f_nonneg : 0 <= f.
Proof. apply Z.div_pos; lia. Qed.

Lemma w_pos : 0 < w.
Proof. apply ulp_of_pos. Qed.

(** A multiple of the spacing that is at most the exact value is at most
    the rounded value, and likewise from above. *)
Lemma grid_below (v : Z) : (w | v) -> v * q <= p -> v <= w * m.
Proof.
  intros [j ->] Hv. pose proof w_pos.
  assert (j <= m) by (apply rne_int_ge; nia). nia.
Qed.

Lemma grid_above (v : Z) : (w | v) -> p <= v * q -> w * m <= v.
Proof.
  intros [j ->] Hv. pose proof w_pos.
  assert (m <= j) by (apply rne_int_le; nia). nia.
Qed.

Lemma rounded_nonneg : 0 <= w * m.
Proof. apply grid_below; [apply Z.divide_0_r|lia]. Qed.

Lemma rounded_binade :
  0 < f -> 2 ^ (digits f - 1) <= w * m <= 2 ^ digits f.
Proof.
  intros Hf. destruct (digits_spec f Hf) as [Hlo Hhi].
  pose proof (digits_pos f Hf) as Hd. pose proof f_bounds as [Hf1 Hf2]. split.
  - apply grid_below; [apply ulp_of_divide_pow; lia|]. nia.
  - apply grid_above; [apply ulp_of_divide_pow; lia|]. nia.
Qed.

Lemma rounded_representable : w * m < top_u -> representable (w * m).
Proof.
  intros Htop. split; [pose proof rounded_nonneg; lia|].
  destruct (Z.eq_dec f 0) as [Hf0|Hfn].
  - (* below one unit *)
    assert (Hw : w = 1) by (unfold w; rewrite Hf0; reflexivity).
    pose proof f_bounds as [_ Hf2]. rewrite Hf0 in Hf2.
    assert (m <= 1) by (apply rne_int_le; nia).
    pose proof rounded_nonneg. rewrite Hw in *.
    assert (Hm : m = 0 \/ m = 1) by lia.
    destruct Hm as [-> | ->]; [apply Z.divide_0_r|].
    exists 1. reflexivity.
  - assert (Hf : 0 < f) by (pose proof f_nonneg; lia).
    destruct (rounded_binade Hf) as [Hlo Hhi].
    pose proof (digits_pos f Hf) as Hd.
    destruct (Z.eq_dec (w * m) (2 ^ digits f)) as [Heq|Hne].
    + rewrite Heq. apply ulp_of_divide_pow; [lia|].
      rewrite (Z.le_antisymm (digits (2 ^ digits f)) (digits f + 1)); [lia| |].
      * apply digits_below; [lia|]. rewrite Z.pow_add_r by lia. 
        pose proof (Z.pow_pos_nonneg 2 (digits f)). lia.
      * apply digits_above; lia.
    + assert (Hdig : digits (w * m) = digits f).
      { apply Z.le_antisymm.
        - apply digits_below; lia.
        - replace (digits f) with (digits f - 1 + 1) by lia.
          apply digits_above; lia. }
      unfold ulp_of. rewrite Hdig. fold (ulp_of f). fold w.
      exists m. lia.
Qed.

Lemma round_valid :
  round neg p q = Inf neg \/
  exists u, round neg p q = Fin neg u /\ representable u.
Proof.
  rewrite round_unfold. destruct (Z.leb_spec top_u (w * m)); [by left|right].
  eexists. split; [done|]. by apply rounded_representable.
Qed.

(** Rounding does not cross a binary32 value. *)
Lemma round_le (v : Z) :
  representable v -> p <= v * q ->
  exists u, round neg p q = Fin neg u /\ representable u /\ u <= v.
Proof.
  intros [Hv Hdiv] Hpv.
  assert (Hfv : f <= v).
  { pose proof f_bounds. nia. }
  assert (Hle : w * m <= v).
  { apply grid_above; [|done].
    eapply Z.divide_trans; [apply (ulp_of_mono f v Hfv)|done]. }
  rewrite round_unfold. destruct (Z.leb_spec top_u (w * m)); [lia|].
  eexists. split; [done|]. split; [by apply rounded_representable|done].
Qed.

Lemma round_ge (v : Z) :
  representable v -> v * q <= p ->
  round neg p q = Inf neg \/
  exists u, round neg p q = Fin neg u /\ representable u /\ v <= u.
Proof.
  intros [Hv Hdiv] Hpv.
  assert (Hfv : v <= f).
  { pose proof f_bounds. nia. }
  assert (Hle : v <= w * m).
  { destruct (Z.eq_dec v 0) as [->|Hv0]; [apply rounded_nonneg|].
    assert (Hf : 0 < f) by lia.
    pose proof (digits_mono v f Hfv) as Hdm.
    destruct (Z.eq_dec (digits v) (digits f)) as [Heq|Hne].
    - apply grid_below; [|done]. unfold w, ulp_of. rewrite <- Heq. exact Hdiv.
    - destruct (rounded_binade Hf) as [Hlo _].
      destruct (digits_spec v ltac:(lia)) as [_ Hvhi].
      assert (2 ^ digits v <= 2 ^ (digits f - 1))
        by (apply Z.pow_le_mono_r; lia).
      lia. }
  rewrite round_unfold. destruct (Z.leb_spec top_u (w * m)); [by left|right].
  eexists. split; [done|]. split; [by apply rounded_representable|done].
Qed.

End Round.

Lemma round_exact (neg : bool) (u q : Z) :
  0 < q -> representable u -> round neg (u * q) q = Fin neg u.
Proof.
  intros Hq Hu. pose proof Hu as [Hrange _].
  destruct (round_le neg (u * q) q ltac:(nia) Hq u Hu ltac:(lia))
    as (u1 & Hr & _ & Hle).
  destruct (round_ge neg (u * q) q ltac:(nia) Hq u Hu ltac:(lia))
    as [Hinf|(u2 & Hr2 & _ & Hge)]; [congruence|].
  rewrite Hr in Hr2. injection Hr2 as <-. rewrite Hr. f_equal. lia.
Qed.

End Binary32Facts.

Section Binary32Ops.
Import Binary32.
Local Open Scope Z_scope.

Lemma representableb_spec (u : Z) : representableb u = true <-> representable u.
Proof.
  unfold representableb, representable. pose proof (ulp_of_pos u).
  rewrite !andb_true_iff, Z.leb_le, Z.ltb_lt, Z.eqb_eq.
  rewrite (Z.mod_divide u (ulp_of u)) by lia. tauto.
Qed.

Lemma finiteb_spec (x : float32) : finiteb x = true <-> finite x.
Proof. destruct x; cbn; [done|done|apply representableb_spec]. Qed.

Lemma finite_valid (x : float32) : finite x -> valid x.
Proof. by destruct x. Qed.

Lemma representable_0 : representable 0.
Proof. by apply representableb_spec. Qed.

Lemma digits_mul_pow2 (m e : Z) : 0 < m -> 0 <= e -> digits (m * 2 ^ e) = digits m + e.
Proof.
  intros Hm He. rewrite !digits_eq.
  - rewrite Z.log2_mul_pow2 by lia. lia.
  - done.
  - pose proof (Z.pow_pos_nonneg 2 e). nia.
Qed.

(** A whole number of at most 24 bits times a power of two is a binary32
    value, short of overflow. *)
Lemma representable_dyadic (m e : Z) :
  0 <= m <= 2 ^ 24 -> 0 <= e -> m * 2 ^ e < top_u -> representable (m * 2 ^ e).
Proof.
  intros Hm He Htop. pose proof (Z.pow_pos_nonneg 2 e ltac:(lia) He) as Hpe.
  split; [nia|].
  destruct (Z.eq_dec m 0) as [->|Hm0]; [apply Z.divide_0_r|].
  unfold ulp_of. rewrite digits_mul_pow2 by lia.
  destruct (Z.eq_dec m (2 ^ 24)) as [->|Hlt].
  - rewrite <- Z.pow_add_r by lia. apply pow2_divide.
    change (digits (2 ^ 24)) with 25. lia.
  - apply Z.divide_mul_r. apply pow2_divide.
    pose proof (digits_below m 24 ltac:(lia) ltac:(lia)). lia.
Qed.

Lemma representable_int (z : Z) : 0 <= z <= 2 ^ 24 -> representable (z * one_u).
Proof.
  intros Hz. apply representable_dyadic; [done|done|].
  change top_u with (2 ^ 128 * 2 ^ 149). unfold one_u.
  apply Z.mul_lt_mono_pos_r; lia.
Qed.

(** [static_cast<float>] is exact up to 2^24. *)
Lemma of_Z_exact (z : Z) :
  Z.abs z <= 2 ^ 24 -> of_Z z = Fin (z <? 0) (Z.abs z * one_u).
Proof.
  intros Hz. unfold of_Z.
  rewrite <- (Z.mul_1_r (Z.abs z * one_u)) at 1.
  apply round_exact; [lia|]. apply representable_int. lia.
Qed.

(** It never exceeds a binary32 bound of its argument. *)
Lemma of_Z_le (z b : Z) :
  0 <= z -> representable b -> z * one_u <= b ->
  exists u, of_Z z = Fin false u /\ representable u /\ u <= b.
Proof.
  intros Hz Hb Hzb. unfold of_Z.
  destruct (Z.ltb_spec z 0); [lia|]. rewrite Z.abs_eq by done.
  apply round_le; [unfold one_u; lia|lia|done|lia].
Qed.

Lemma mul_one_l (x : float32) : valid x -> mul (Fin false one_u) x = x.
Proof.
  destruct x as [|s|s u]; [done|done|]. intros Hu. cbn [mul xorb].
  rewrite Z.mul_comm. by apply round_exact.
Qed.

Lemma mul_zero_l (s : bool) (x : float32) :
  finite x -> exists s', mul (Fin s 0) x = Fin s' 0.
Proof.
  destruct x as [|s2|s2 u]; [done|done|]. intros _. cbn [mul].
  rewrite Z.mul_0_l. by eexists.
Qed.

Lemma add_zero_r (s s' : bool) (u : Z) :
  representable u -> u <> 0 -> add (Fin s u) (Fin s' 0) = Fin s u.
Proof.
  intros Hu Hu0. pose proof Hu as [Hr _]. unfold add.
  assert (Hs : sval s' 0 = 0) by (by destruct s').
  rewrite Hs, Z.add_0_r.
  destruct (Z.eqb_spec (sval s u) 0) as [H0|_]; [destruct s; cbn in H0; lia|].
  replace (sval s u <? 0) with s
    by (destruct s; cbn; [symmetry; apply Z.ltb_lt|symmetry; apply Z.ltb_ge]; lia).
  replace (Z.abs (sval s u)) with (u * 1) by (destruct s; cbn; lia).
  by apply round_exact.
Qed.

Lemma sub_diag (s : bool) (u : Z) : sub (Fin s u) (Fin s u) = Fin false 0.
Proof.
  unfold sub, add, opp.
  replace (sval s u + sval (negb s) u) with 0 by (destruct s; cbn; lia).
  cbn. by destruct s.
Qed.

(** A factor in [0, 1] does not enlarge. *)
Lemma mul_le_r (st : bool) (ut uy : Z) :
  0 <= ut <= one_u -> representable uy ->
  exists us, mul (Fin st ut) (Fin false uy) = Fin st us /\
             representable us /\ us <= uy.
Proof.
  intros Ht Hy. pose proof Hy as [Hyr _]. cbn [mul].
  rewrite xorb_false_r. apply round_le; [nia|unfold one_u; lia|done|nia].
Qed.

End Binary32Ops.

(** * The range of int *)

(** Two loops over the same rounds whose states stay related. *)
Lemma for_loop_related {S T : Type} (Rel : S -> T -> Prop) lo hi
    (body : Z -> S -> S) (body' : Z -> T -> T) s t :
  Rel s t ->
  (forall i s t, (lo <= i < hi)%Z -> Rel s t -> Rel (body i s) (body' i t)) ->
  Rel (for_loop lo hi body s) (for_loop lo hi body' t).
Proof.
  intros Hst Hstep. unfold for_loop.
  assert (Hin : forall i, i ∈ seqZ lo (hi - lo) -> (lo <= i < hi)%Z)
    by (intros i Hi; apply elem_of_seqZ in Hi; lia).
  revert s t Hst. induction (seqZ lo (hi - lo)) as [|i l IH]; intros s t Hst; [done|].
  cbn [foldl]. apply IH.
  - intros j Hj. apply Hin. by right.
  - apply Hstep; [|done]. apply Hin. by left.
Qed.

Section CheckedSubdivision.
Context {F : Type} `{FloatOps F}.
Local Open Scope Z_scope.

Lemma int_Some (z : Z) : Checked.INT_MIN <= z <= Checked.INT_MAX -> Checked.int z = Some z.
Proof.
  intros Hz. unfold Checked.int.
  destruct (Z.leb_spec Checked.INT_MIN z), (Z.leb_spec z Checked.INT_MAX); done || lia.
Qed.

Lemma int_None (z : Z) : Checked.INT_MAX < z -> Checked.int z = None.
Proof.
  intros Hz. unfold Checked.int.
  destruct (Z.leb_spec Checked.INT_MIN z), (Z.leb_spec z Checked.INT_MAX); done || lia.
Qed.

Lemma int_inv (z r : Z) :
  Checked.int z = Some r -> r = z /\ Checked.INT_MIN <= z <= Checked.INT_MAX.
Proof.
  unfold Checked.int.
  destruct (Z.leb_spec Checked.INT_MIN z), (Z.leb_spec z Checked.INT_MAX);
    cbn; intros [= <-]; lia.
Qed.

(** One round of the outer loop, unchecked and checked. *)
Definition round_of (degree : Z) (points : list (Vec3 F)) : list (Vec3 F) :=
  for_loop 1 degree (fun _ newPoints => ClosedSubdivisionCurve.averaging_pass newPoints)
    (ClosedSubdivisionCurve.insert_midpoints points).

Definition checked_round_of (degree : Z) (points : list (Vec3 F))
  : option (list (Vec3 F)) :=
  newPoints ← Checked.insert_midpoints points;
  for_loop 1 degree (fun _ acc =>
    newPoints ← acc; Checked.averaging_pass newPoints) (Some newPoints).

Lemma getDim_round_of (degree : Z) (points : list (Vec3 F)) :
  getDim (round_of degree points) = 2 * getDim points.
Proof. apply getDim_round. Qed.

(** A checked round gives the unchecked result or nothing. *)
Lemma checked_round_sound (degree : Z) (points r : list (Vec3 F)) :
  checked_round_of degree points = Some r -> r = round_of degree points.
Proof.
  unfold checked_round_of, round_of, Checked.insert_midpoints.
  destruct (Checked.int _); [|done]. cbn [mbind option_bind].
  generalize (ClosedSubdivisionCurve.insert_midpoints points). intros newPoints.
  revert r.
  apply (for_loop_related (fun (acc : option (list (Vec3 F))) v =>
           forall r, acc = Some r -> r = v)).
  - by intros r [= <-].
  - intros i [v'|] v _ Hv r; [|done]. cbn [mbind option_bind].
    rewrite (Hv v' eq_refl). unfold Checked.averaging_pass.
    destruct (if 0 <? getDim v then _ else _); [|done]. by intros [= <-].
Qed.

Lemma checked_round_runs (degree : Z) (points : list (Vec3 F)) :
  2 * getDim points <= 2 ^ 30 ->
  checked_round_of degree points = Some (round_of degree points).
Proof.
  intros Hdim. pose proof (getDim_nonneg points) as Hnn.
  unfold checked_round_of, round_of, Checked.insert_midpoints.
  rewrite int_Some by (unfold Checked.INT_MIN, Checked.INT_MAX; lia).
  cbn [mbind option_bind].
  pose proof (getDim_insert_midpoints points) as Hmid.
  revert Hmid. generalize (ClosedSubdivisionCurve.insert_midpoints points).
  intros newPoints Hnew.
  apply (for_loop_related (fun (acc : option (list (Vec3 F))) v =>
           acc = Some v /\ getDim v = 2 * getDim points)); [done|].
  intros i acc v _ [-> Hv]. cbn [mbind option_bind]. split.
  - unfold Checked.averaging_pass.
    destruct (Z.ltb_spec 0 (getDim v)); [|done].
    by rewrite int_Some by (unfold Checked.INT_MIN, Checked.INT_MAX; lia).
  - by rewrite getDim_averaging_pass.
Qed.

(** A round whose doubled size leaves the range of int is undefined. *)
Lemma checked_round_overflow (degree : Z) (points : list (Vec3 F)) :
  Checked.INT_MAX < 2 * getDim points -> checked_round_of degree points = None.
Proof.
  intros Hdim. unfold checked_round_of, Checked.insert_midpoints.
  by rewrite int_None.
Qed.

Lemma checked_subdivision_unfold (controlPoints : list (Vec3 F)) (degree : Z) :
  Checked.laneRiesenfeldSubdivision controlPoints degree
  = (points ← for_loop 0 degree (fun _ acc =>
                 points ← acc; checked_round_of degree points) (Some controlPoints);
     Some (if 1 <? getDim points
           then <[Z.to_nat (getDim points - 1) := at_ points 0]> points
           else points)).
Proof. reflexivity. Qed.

Lemma subdivision_unfold (controlPoints : list (Vec3 F)) (degree : Z) :
  ClosedSubdivisionCurve.laneRiesenfeldSubdivision controlPoints degree
  = let points := for_loop 0 degree (fun _ points => round_of degree points)
                    controlPoints in
    if 1 <? getDim points
    then <[Z.to_nat (getDim points - 1) := at_ points 0]> points
    else points.
Proof. reflexivity. Qed.

(** The checked subdivision gives the table of the unchecked one, or
    nothing. *)
Lemma checked_subdivision_sound (controlPoints table : list (Vec3 F)) (degree : Z) :
  Checked.laneRiesenfeldSubdivision controlPoints degree = Some table ->
  table = ClosedSubdivisionCurve.laneRiesenfeldSubdivision controlPoints degree.
Proof.
  rewrite checked_subdivision_unfold, subdivision_unfold. cbv zeta.
  assert (Hloop : forall r,
    for_loop 0 degree (fun _ acc => points ← acc; checked_round_of degree points)
      (Some controlPoints) = Some r ->
    r = for_loop 0 degree (fun _ points => round_of degree points) controlPoints).
  { apply (for_loop_related (fun (acc : option (list (Vec3 F))) v =>
             forall r, acc = Some r -> r = v)).
    - by intros r [= <-].
    - intros i [v'|] v _ Hv r; [|done]. cbn [mbind option_bind].
      rewrite (Hv v' eq_refl). apply checked_round_sound. }
  destruct (for_loop 0 degree _ (Some controlPoints)) as [r|]; [|done].
  cbn [mbind option_bind]. intros [= <-]. by rewrite (Hloop r eq_refl).
Qed.

(** It runs when the final size is at most 2^30. *)
Lemma checked_subdivision_runs (controlPoints : list (Vec3 F)) (degree : Z) :
  0 <= degree -> getDim controlPoints * 2 ^ degree <= 2 ^ 30 ->
  Checked.laneRiesenfeldSubdivision controlPoints degree
  = Some (ClosedSubdivisionCurve.laneRiesenfeldSubdivision controlPoints degree).
Proof.
  intros Hdeg Hsize. rewrite checked_subdivision_unfold, subdivision_unfold. cbv zeta.
  pose proof (getDim_nonneg controlPoints) as Hnn.
  assert (Hloop :
    for_loop 0 degree (fun _ acc => points ← acc; checked_round_of degree points)
      (Some controlPoints)
    = Some (for_loop 0 degree (fun _ points => round_of degree points) controlPoints)).
  { enough (Hinv : let acc := for_loop 0 degree
                       (fun _ acc => points ← acc; checked_round_of degree points)
                       (Some controlPoints) in
                   let v := for_loop 0 degree (fun _ points => round_of degree points)
                              controlPoints in
                   acc = Some v) by exact Hinv.
    cbv zeta.
    pose (St := (option (list (Vec3 F)) * list (Vec3 F))%type).
    pose proof (for_loop_rounds
      (fun i (st : St) => st.1 = Some st.2 /\ getDim st.2 = getDim controlPoints * 2 ^ i)
      0 degree
      (fun _ st => (points ← st.1; checked_round_of degree points, round_of degree st.2))
      (Some controlPoints, controlPoints) Hdeg) as Hr.
    cbn [fst snd] in Hr.
    assert (Hpair : forall l (a : option (list (Vec3 F))) (v : list (Vec3 F)),
      foldl (fun (st : St) (_ : Z) =>
               (points ← st.1; checked_round_of degree points, round_of degree st.2))
            (a, v) l
      = (foldl (fun acc (_ : Z) => points ← acc; checked_round_of degree points) a l,
         foldl (fun points (_ : Z) => round_of degree points) v l)).
    { induction l as [|i l IH]; intros a v; [done|]. cbn [foldl fst snd]. apply IH. }
    unfold for_loop in Hr |- *. rewrite Hpair in Hr. cbn [fst snd] in Hr.
    apply Hr.
    - split; [done|]. lia.
    - intros i [a v] Hi [Ha Hv]. cbn [fst snd] in *. subst a.
      cbn [mbind option_bind].
      assert (Hpow : 2 ^ (i + 1) <= 2 ^ degree) by (apply Z.pow_le_mono_r; lia).
      rewrite Z.pow_add_r in Hpow |- * by lia. split.
      + apply checked_round_runs. nia.
      + rewrite getDim_round_of. lia. }
  by rewrite Hloop.
Qed.

Lemma checked_round_size (degree : Z) (points r : list (Vec3 F)) :
  checked_round_of degree points = Some r -> 2 * getDim points <= Checked.INT_MAX.
Proof.
  unfold checked_round_of, Checked.insert_midpoints.
  destruct (Checked.int (2 * getDim points)) as [z|] eqn:Hz; [|done].
  intros _. apply int_inv in Hz. lia.
Qed.

(** Beyond the range of int it does not. *)
Lemma checked_subdivision_overflow (controlPoints : list (Vec3 F)) (degree : Z) :
  0 <= degree -> getDim controlPoints <= Checked.INT_MAX ->
  Checked.INT_MAX < getDim controlPoints * 2 ^ degree ->
  Checked.laneRiesenfeldSubdivision controlPoints degree = None.
Proof.
  intros Hdeg Hn Hsize. rewrite checked_subdivision_unfold.
  assert (Hloop :
    for_loop 0 degree (fun _ acc => points ← acc; checked_round_of degree points)
      (Some controlPoints) = None); [|by rewrite Hloop].
  pose proof (for_loop_rounds
    (fun i (acc : option (list (Vec3 F))) =>
       forall v, acc = Some v ->
         getDim v = getDim controlPoints * 2 ^ i /\ getDim v <= Checked.INT_MAX)
    0 degree (fun _ acc => points ← acc; checked_round_of degree points)
    (Some controlPoints) Hdeg) as Hr.
  destruct (for_loop 0 degree _ (Some controlPoints)) as [v|]; [|done].
  exfalso. destruct Hr with (v := v) as [Hv1 Hv2]; [| |done|lia].
  - intros v0 [= <-]. lia.
  - intros i [v0|] Hi Hacc r; [|done]. cbn [mbind option_bind]. intros Hr0.
    destruct (Hacc v0 eq_refl) as [Hsz _].
    pose proof (checked_round_size _ _ _ Hr0) as Hle.
    apply checked_round_sound in Hr0 as ->.
    rewrite getDim_round_of, Z.pow_add_r by lia. lia.
Qed.

End CheckedSubdivision.

(** * ClosedSubdivisionCurve.eval on binary32 *)

Section CheckedEval.
Context {F : Type} `{FloatOps F}.
Import ClosedSubdivisionCurve.
Local Open Scope Z_scope.

(** With a derivative order, a table size and a floor inside the range of
    int, the checked [eval] is [eval]. *)
Lemma checked_eval_runs (c : t F) (t : F) (d : Z) :
  let dim := getDim (subdividedPoints c) in
  0 <= d < Checked.INT_MAX -> 1 <= dim <= 2 ^ 30 ->
  0 <= floor_int (scaled_t dim t) <= Checked.INT_MAX ->
  Checked.eval c t d = eval c t d.
Proof.
  intros dim Hd Hdim Hfl. unfold Checked.eval, eval. fold dim.
  assert (Hrange : forall z, - 2 ^ 31 <= z <= 2 ^ 31 - 1 -> Checked.int z = Some z)
    by (intros z Hz; by apply int_Some).
  rewrite (Hrange (d + 1)) by (unfold Checked.INT_MAX in *; lia).
  rewrite (Hrange (dim - 1)) by lia. cbn [mbind option_bind].
  fold (scaled_t dim t).
  rewrite (Hrange (floor_int (scaled_t dim t))) by (unfold Checked.INT_MAX in *; lia).
  cbn [mbind option_bind].
  destruct (Z.eqb_spec dim 0) as [?|_]; [lia|].
  fold (index_of dim t).
  assert (Hidx : 0 <= index_of dim t < dim) by (apply Z.rem_bound_pos; lia).
  rewrite (Hrange (index_of dim t + 1)) by lia.
  rewrite (Hrange (index_of dim t - 1)) by lia.
  destruct (rd (subdividedPoints c) (index_of dim t)); [|done].
  cbn [mbind option_bind].
  rewrite (Hrange (index_of dim t - 1 + dim)) by lia.
  reflexivity.
Qed.

End CheckedEval.

Section Eval32.
Import Binary32 ClosedSubdivisionCurve.
Local Open Scope Z_scope.

Lemma of_Z_0 : of_Z 0 = Fin false 0.
Proof. reflexivity. Qed.

Lemma of_Z_1 : of_Z 1 = Fin false one_u.
Proof. reflexivity. Qed.

Lemma f0_32 : @f0 float32 _ = Fin false 0.
Proof. reflexivity. Qed.

Lemma f1_32 : @f1 float32 _ = Fin false one_u.
Proof. reflexivity. Qed.

Lemma fhalf_32 : @fhalf float32 _ = Fin false (2 ^ 148).
Proof. reflexivity. Qed.

(** A datum the code's comparisons place in [0, 1]. *)
Lemma unit_interval_inv (t : float32) :
  fleb f0 t = true -> fleb t f1 = true ->
  exists st ut, t = Fin st ut /\ 0 <= sval st ut <= one_u.
Proof.
  rewrite f0_32, f1_32. cbn [fleb B32_ops]. unfold leb, cmp.
  destruct t as [|s|st ut]; cbn [ord]; [done| |].
  - destruct s; cbn; intros H0 H1; [apply Z.leb_le in H0|apply Z.leb_le in H1];
      unfold top_u, one_u in *; lia.
  - cbn. intros H0%Z.leb_le H1%Z.leb_le. by exists st, ut.
Qed.

Lemma representable_pow2 (e : Z) : 0 <= e < 277 -> representable (2 ^ e).
Proof.
  intros He. rewrite <- (Z.mul_1_l (2 ^ e)).
  apply representable_dyadic; [lia|lia|].
  rewrite Z.mul_1_l. unfold top_u. apply Z.pow_lt_mono_r; lia.
Qed.

(** The scaled parameter: t (N - 1) for t in [0, 1] is a finite value
    between 0 and float(N - 1). *)
Lemma scaled_unit (N : Z) (st : bool) (ut : Z) :
  1 <= N <= 2 ^ 30 -> 0 <= ut -> 0 <= sval st ut <= one_u ->
  exists uy us,
    of_Z (N - 1) = Fin false uy /\ representable uy /\ uy <= 2 ^ 30 * one_u /\
    scaled_t N (Fin st ut) = Fin st us /\ representable us /\ us <= uy /\
    0 <= sval st us.
Proof.
  intros HN Hu Ht.
  destruct (of_Z_le (N - 1) (2 ^ 30 * one_u)) as (uy & Hy & Hyr & Hyb).
  - lia.
  - change (2 ^ 30 * one_u) with (2 ^ 179). by apply representable_pow2.
  - apply Z.mul_le_mono_nonneg_r; [unfold one_u|]; lia.
  - exists uy. unfold scaled_t. cbn [fmul of_int B32_ops]. rewrite Hy.
    assert (Hut : 0 <= ut <= one_u) by (destruct st; cbn in Ht; lia).
    destruct (mul_le_r st ut uy Hut Hyr) as (us & Hs & Hsr & Hsb).
    exists us. do 6 (split; [done|]).
    pose proof Hsr as [[Hs0 _] _].
    destruct st; cbn [sval] in Ht |- *; [|done].
    assert (ut = 0) as -> by lia.
    cbn [mul] in Hs. rewrite Z.mul_0_l in Hs. injection Hs as <-. done.
Qed.

Lemma floor_nonneg (st : bool) (us b : Z) :
  0 <= us -> 0 <= sval st us -> us <= b * one_u -> 0 <= floor (Fin st us) <= b.
Proof.
  intros Hu Hs Hb. cbn [floor].
  assert (Hle : sval st us <= b * one_u) by (destruct st; cbn [sval] in *; lia).
  split; [apply Z.div_pos; [done|unfold one_u; lia]|].
  apply Z.div_le_upper_bound; [unfold one_u; lia|lia].
Qed.


Lemma mul_comm (x y : float32) : mul x y = mul y x.
Proof.
  destruct x as [|s1|s1 u1], y as [|s2|s2 u2]; cbn [mul]; try done.
  - by rewrite xorb_comm.
  - by rewrite xorb_comm.
  - by rewrite xorb_comm.
  - by rewrite xorb_comm, Z.mul_comm.
Qed.

Lemma vmul_smul_32 (v : Vec3 float32) (c : float32) : vmul v c = smul c v.
Proof. unfold vmul, smul. cbn [fmul B32_ops]. f_equal; apply mul_comm. Qed.

(** For t in [0, 1] and a table of at most 2^30 entries the floor of the
    scaled parameter is a non-negative int and the index is in range. *)
Lemma index_of_32 (N : Z) (t : float32) :
  2 <= N <= 2 ^ 30 -> valid t -> fleb f0 t = true -> fleb t f1 = true ->
  0 <= floor_int (scaled_t N t) <= 2 ^ 30 /\ 0 <= index_of N t <= N - 1.
Proof.
  intros HN Hv H0 H1. destruct (unit_interval_inv t H0 H1) as (st & ut & -> & Ht).
  cbn [valid] in Hv. pose proof Hv as [[Hu _] _].
  destruct (scaled_unit N st ut ltac:(lia) Hu Ht)
    as (uy & us & Hy & Hyr & Hyb & Hs & Hsr & Hsb & Hsn).
  pose proof Hsr as [[Hus _] _].
  assert (Hfl : 0 <= floor_int (scaled_t N (Fin st ut)) <= 2 ^ 30).
  { rewrite Hs. cbn [floor_int B32_ops]. apply floor_nonneg; [done|done|lia]. }
  split; [done|]. unfold index_of.
  pose proof (Z.rem_bound_pos (floor_int (scaled_t N (Fin st ut))) N). lia.
Qed.

(** Up to 2^24 + 1 entries, N - 1 converts exactly and the floor stays
    below N. *)
Lemma scaled_unit_exact (N : Z) (st : bool) (ut : Z) :
  1 <= N <= 2 ^ 24 + 1 -> 0 <= ut -> 0 <= sval st ut <= one_u ->
  exists us,
    scaled_t N (Fin st ut) = Fin st us /\ representable us /\
    us <= (N - 1) * one_u /\ 0 <= sval st us.
Proof.
  intros HN Hu Ht.
  destruct (scaled_unit N st ut ltac:(lia) Hu Ht)
    as (uy & us & Hy & Hyr & Hyb & Hs & Hsr & Hsb & Hsn).
  rewrite of_Z_exact in Hy by lia. injection Hy as _ <-.
  exists us. rewrite Z.abs_eq in Hsb by lia. done.
Qed.

(** The subtraction that gives [alpha] is exact: a binary32 value below
    2^24 minus its floor is a binary32 value. *)
Lemma frac_exact (st : bool) (us : Z) :
  representable us -> 0 <= sval st us -> us <= 2 ^ 24 * one_u ->
  sub (Fin st us) (of_Z (floor (Fin st us))) = Fin st (us mod one_u) /\
  representable (us mod one_u) /\
  us mod one_u = sval st us - floor (Fin st us) * one_u.
Proof.
  intros Hr Hs Hb. pose proof Hr as [[Hus Htop] Hdiv].
  assert (Hone : 0 < one_u) by (unfold one_u; lia).
  pose proof (Z.div_mod us one_u ltac:(lia)) as Hdm.
  pose proof (Z.mod_pos_bound us one_u Hone) as Hm.
  destruct st; cbn [sval] in Hs.
  - assert (us = 0) as -> by lia. done.
  - cbn [floor sval]. set (fl := us / one_u) in *.
    assert (Hfl : 0 <= fl <= 2 ^ 24).
    { split; [apply Z.div_pos; lia|]. apply Z.div_le_upper_bound; lia. }
    assert (Hrep : representable (us mod one_u)).
    { destruct (Z.eq_dec (us mod one_u) 0) as [->|Hne]; [apply representable_0|].
      split; [lia|].
      apply Z.divide_trans with (ulp_of us); [apply ulp_of_mono; lia|].
      replace (us mod one_u) with (us - fl * one_u) by lia.
      apply Z.divide_sub_r; [done|]. apply Z.divide_mul_r.
      unfold ulp_of, one_u. apply pow2_divide.
      assert (us < 2 ^ 173).
      { change (2 ^ 173) with (2 ^ 24 * one_u).
        destruct (Z.eq_dec us (2 ^ 24 * one_u)) as [Heq|?]; [|lia].
        exfalso. apply Hne. rewrite Heq. apply Z.mod_mul. lia. }
      pose proof (digits_below us 173 ltac:(lia) ltac:(lia)). lia. }
    split; [|split; [done|lia]].
    rewrite of_Z_exact by lia.
    destruct (Z.ltb_spec fl 0); [lia|]. rewrite Z.abs_eq by lia.
    unfold sub, add, opp. cbn [negb sval andb].
    replace (us + - (fl * one_u)) with (us mod one_u) by lia.
    destruct (Z.eqb_spec (us mod one_u) 0) as [->|Hne]; [done|].
    destruct (Z.ltb_spec (us mod one_u) 0); [lia|].
    rewrite Z.abs_eq by lia.
    rewrite <- (Z.mul_1_r (us mod one_u)) at 1. apply round_exact; [lia|done].
Qed.

End Eval32.

